(** * Header-field tables of package cocaine12 (tables.go)

    A shallow embedding of [HeaderField], [headerFieldTable] and the
    process-wide [staticTable], followed by the properties of insertion,
    eviction and search that the design document states about them. *)

From stdpp Require Import gmap strings list fin_maps.
From Stdlib Require Import ZArith Lia.

Local Open Scope Z_scope.

(** ** Machine integers

    Go's [uint64], [uint32] and (64-bit) [int] are carried by [Z]; every
    arithmetic operation of the source writes its wrap-around out. *)

Definition two64 : Z := 2 ^ 64.
Definition two63 : Z := 2 ^ 63.
Definition two32 : Z := 2 ^ 32.

(** Conversion to [uint64], as in [uint64(x)]. *)
Definition u64 (z : Z) : Z := z mod two64.
(** Conversion to [uint32], as in [uint32(x)]. *)
Definition u32 (z : Z) : Z := z mod two32.
(** Two's complement [int] result of an arithmetic operation. *)
Definition int64 (z : Z) : Z := (z + two63) mod two64 - two63.

Definition add64 (a b : Z) : Z := u64 (a + b).
Definition sub64 (a b : Z) : Z := u64 (a - b).

(** Values a [uint64] variable can hold, and values an [int] can hold. *)
Definition is_u64 (z : Z) : Prop := 0 <= z < two64.
Definition is_int (z : Z) : Prop := - two63 <= z < two63.

(** ** Panics

    The two explicit [panic] calls of [evictOldest], the one of
    [idToIndex], and the run-time panics of slicing and indexing. *)

Inductive panic : Type :=
| PanicEvictOldest (n len : Z)      (* "evictOldest(%v) on table with %v entries" *)
| PanicEvictCountOverflow           (* "evictCount overflow" *)
| PanicIdEvicted (id evictCount : Z) (* "id (%v) <= evictCount (%v)" *)
| PanicSliceBounds (n : Z)          (* run time: slice bounds out of range *)
| PanicIndexRange (k : Z).          (* run time: index out of range *)

Inductive result (A : Type) : Type :=
| Ok (a : A)
| Panic (p : panic).
Arguments Ok {A} a.
Arguments Panic {A} p.

(** Sequencing: a panic ends the computation. *)
#[global] Instance result_ret : MRet result := λ A a, Ok a.
#[global] Instance result_bind : MBind result := λ A B k r,
  match r with
  | Ok a => k a
  | Panic p => Panic p
  end.

Definition panics {A : Type} (r : result A) : Prop :=
  match r with
  | Ok _ => False
  | Panic _ => True
  end.

(** ** HeaderField *)

Record HeaderField : Type := mkHeaderField {
  Name : string;
  Value : string;
  Sensitive : bool
}.

(** [len(s)] of a Go string: its number of bytes. *)
Definition strlen (s : string) : Z := Z.of_nat (String.length s).

(** [func (hf HeaderField) Size() uint32]: the sum is formed in [int] and
    converted to [uint32]. *)
Definition Size (hf : HeaderField) : Z :=
  u32 (int64 (int64 (strlen (Name hf) + strlen (Value hf)) + 32)).

(** ** headerFieldTable *)

Record pairNameValue : Type := mkPairNameValue {
  name : string;
  value : string
}.

#[global] Instance pairNameValue_eq_dec : EqDecision pairNameValue.
Proof. solve_decision. Defined.

#[global] Instance pairNameValue_countable : Countable pairNameValue :=
  inj_countable'
    (λ p, (name p, value p))
    (λ q, mkPairNameValue q.1 q.2)
    (λ p, match p with mkPairNameValue _ _ => eq_refl end).

Record headerFieldTable : Type := mkTable {
  ents : list HeaderField;
  evictCount : Z;
  byName : gmap string Z;
  byNameValue : gmap pairNameValue Z
}.

(** Reading a Go map: a missing key reads as the zero value. *)
Definition mapGet `{Countable K} (m : gmap K Z) (k : K) : Z :=
  default 0 (m !! k).

(** [t.init()] on a zero-valued table: both maps are made, [ents] is the
    nil slice and [evictCount] is 0. *)
Definition init : headerFieldTable :=
  {| ents := []; evictCount := 0; byName := ∅; byNameValue := ∅ |}.

(** [t.len()] *)
Definition len (t : headerFieldTable) : Z := Z.of_nat (length (ents t)).

(** The unique id computed on the first line of [addEntry]. *)
Definition newId (t : headerFieldTable) : Z :=
  add64 (add64 (u64 (len t)) (evictCount t)) 1.

(** [addEntry] *)
Definition addEntry (f : HeaderField) (t : headerFieldTable) : headerFieldTable :=
  let id := newId t in
  {| ents := ents t ++ [f];
     evictCount := evictCount t;
     byName := <[Name f := id]> (byName t);
     byNameValue := <[mkPairNameValue (Name f) (Value f) := id]> (byNameValue t) |}.

(** One iteration of the first loop of [evictOldest], for index [k] holding
    entry [f]. *)
Definition evictEntry (k : Z) (f : HeaderField) (t : headerFieldTable) : headerFieldTable :=
  let id := add64 (add64 (evictCount t) (u64 k)) 1 in
  let bn :=
    if decide (mapGet (byName t) (Name f) = id)
    then <[Name f := 0]> (byName t) else byName t in
  let p := mkPairNameValue (Name f) (Value f) in
  let bnv :=
    if decide (mapGet (byNameValue t) p = id)
    then <[p := 0]> (byNameValue t) else byNameValue t in
  {| ents := ents t; evictCount := evictCount t; byName := bn; byNameValue := bnv |}.

(** [for k := k; k < n; k++ { f := t.ents[k]; ... }] with [cnt] iterations
    left. *)
Fixpoint evictLoop (cnt : nat) (k : Z) (t : headerFieldTable) : result headerFieldTable :=
  match cnt with
  | O => Ok t
  | S cnt' =>
      match ents t !! Z.to_nat k with
      | Some f => evictLoop cnt' (k + 1) (evictEntry k f t)
      | None => Panic (PanicIndexRange k)
      end
  end.

(** [copy(dst, src)]: the first [min(len(dst), len(src))] elements of [dst]
    are overwritten. *)
Definition copySlice {A : Type} (dst src : list A) : list A :=
  take (length dst) src ++ drop (length src) dst.

(** [HeaderField{}], the zero value. *)
Definition zeroHeaderField : HeaderField :=
  {| Name := EmptyString; Value := EmptyString; Sensitive := false |}.

(** [for k := lo; k < hi; k++ { l[k] = HeaderField{} }], [cnt] iterations. *)
Fixpoint zeroLoop (cnt : nat) (k : nat) (l : list HeaderField) : list HeaderField :=
  match cnt with
  | O => l
  | S cnt' => zeroLoop cnt' (S k) (<[k := zeroHeaderField]> l)
  end.

(** [evictOldest] *)
Definition evictOldest (n : Z) (t : headerFieldTable) : result headerFieldTable :=
  if decide (n > len t) then Panic (PanicEvictOldest n (len t)) else
  t1 ← evictLoop (Z.to_nat n) 0 t;
  if decide (n < 0) then Panic (PanicSliceBounds n) else
  let e1 := copySlice (ents t1) (drop (Z.to_nat n) (ents t1)) in
  let l := Z.of_nat (length e1) in
  let e2 := zeroLoop (Z.to_nat (l - (l - n))) (Z.to_nat (l - n)) e1 in
  let e3 := take (Z.to_nat (Z.of_nat (length e2) - n)) e2 in
  if decide (add64 (evictCount t1) (u64 n) < evictCount t1)
  then Panic PanicEvictCountOverflow
  else Ok {| ents := e3;
             evictCount := add64 (evictCount t1) (u64 n);
             byName := byName t1;
             byNameValue := byNameValue t1 |}.

(** Whether the receiver is the table the global [staticTable] pointer
    refers to: the outcome of the comparison [t != staticTable]. *)
Inductive tableKind : Type := Static | Dynamic.

(** [idToIndex] *)
Definition idToIndex (kind : tableKind) (t : headerFieldTable) (id : Z) : result Z :=
  if decide (id <= evictCount t) then Panic (PanicIdEvicted id (evictCount t)) else
  let k := sub64 (sub64 id (evictCount t)) 1 in
  match kind with
  | Dynamic => Ok (sub64 (u64 (len t)) k)
  | Static => Ok (add64 k 1)
  end.

(** The second probe of [search]: [byName] alone. *)
Definition searchName (kind : tableKind) (t : headerFieldTable) (f : HeaderField)
  : result (Z * bool) :=
  let id := mapGet (byName t) (Name f) in
  if decide (id ≠ 0) then i ← idToIndex kind t id; Ok (i, false)
  else Ok (0, false).

(** [search] *)
Definition search (kind : tableKind) (t : headerFieldTable) (f : HeaderField)
  : result (Z * bool) :=
  if negb (Sensitive f) then
    let id := mapGet (byNameValue t) (mkPairNameValue (Name f) (Value f)) in
    if decide (id ≠ 0) then i ← idToIndex kind t id; Ok (i, true)
    else searchName kind t f
  else searchName kind t f.

(** [pair] *)
Definition pair (name value : string) : HeaderField :=
  {| Name := name; Value := value; Sensitive := false |}.

(** The entries [newStaticTable] adds, in the order of its [addEntry]
    calls. *)
Definition staticEntries : list HeaderField := [
  pair ":authority" EmptyString;
  pair ":method" "GET";
  pair ":method" "POST";
  pair ":path" "/";
  pair ":path" "/index.html";
  pair ":scheme" "http";
  pair ":scheme" "https";
  pair ":status" "200";
  pair ":status" "204";
  pair ":status" "206";
  pair ":status" "304";
  pair ":status" "400";
  pair ":status" "404";
  pair ":status" "500";
  pair "accept-charset" EmptyString;
  pair "accept-encoding" "gzip, deflate";
  pair "accept-language" EmptyString;
  pair "accept-ranges" EmptyString;
  pair "accept" EmptyString;
  pair "access-control-allow-origin" EmptyString;
  pair "age" EmptyString;
  pair "allow" EmptyString;
  pair "authorization" EmptyString;
  pair "cache-control" EmptyString;
  pair "content-disposition" EmptyString;
  pair "content-encoding" EmptyString;
  pair "content-language" EmptyString;
  pair "content-length" EmptyString;
  pair "content-location" EmptyString;
  pair "content-range" EmptyString;
  pair "content-type" EmptyString;
  pair "cookie" EmptyString;
  pair "date" EmptyString;
  pair "etag" EmptyString;
  pair "expect" EmptyString;
  pair "expires" EmptyString;
  pair "from" EmptyString;
  pair "host" EmptyString;
  pair "if-match" EmptyString;
  pair "if-modified-since" EmptyString;
  pair "if-none-match" EmptyString;
  pair "if-range" EmptyString;
  pair "if-unmodified-since" EmptyString;
  pair "last-modified" EmptyString;
  pair "link" EmptyString;
  pair "location" EmptyString;
  pair "max-forwards" EmptyString;
  pair "proxy-authenticate" EmptyString;
  pair "proxy-authorization" EmptyString;
  pair "range" EmptyString;
  pair "referer" EmptyString;
  pair "refresh" EmptyString;
  pair "retry-after" EmptyString;
  pair "server" EmptyString;
  pair "set-cookie" EmptyString;
  pair "strict-transport-security" EmptyString;
  pair "transfer-encoding" EmptyString;
  pair "user-agent" EmptyString;
  pair "vary" EmptyString;
  pair "via" EmptyString;
  pair "www-authenticate" EmptyString;
  pair EmptyString EmptyString;
  pair EmptyString EmptyString;
  pair EmptyString EmptyString;
  pair EmptyString EmptyString;
  pair EmptyString EmptyString;
  pair EmptyString EmptyString;
  pair EmptyString EmptyString;
  pair EmptyString EmptyString;
  pair EmptyString EmptyString;
  pair EmptyString EmptyString;
  pair "trace_id" EmptyString;
  pair "span_id" EmptyString;
  pair "parent_id" EmptyString
].

(** [newStaticTable]: [init] followed by one [addEntry] per entry. *)
Definition newStaticTable : headerFieldTable :=
  foldl (λ t f, addEntry f t) init staticEntries.

Definition staticTable : headerFieldTable := newStaticTable.

(** Inserting a list of fields one after the other. *)
Definition addEntries (fs : list HeaderField) (t : headerFieldTable) : headerFieldTable :=
  foldl (λ t f, addEntry f t) t fs.


(** ** Vocabulary of the properties *)

(** What a Go variable of type [headerFieldTable] can hold: [evictCount]
    is a [uint64] and [len(ents)] an [int]. *)
Definition wfTable (t : headerFieldTable) : Prop :=
  is_u64 (evictCount t) ∧ len t < two63.

(** The keys under which an entry is recorded in [byName] and in
    [byNameValue]. *)
Definition keyName (f : HeaderField) : string := Name f.
Definition keyPair (f : HeaderField) : pairNameValue :=
  mkPairNameValue (Name f) (Value f).

(** Position in [l] of the last (newest) entry whose key is [x]. *)
Fixpoint newest {K : Type} `{EqDecision K} (key : HeaderField → K) (x : K)
    (l : list HeaderField) : option nat :=
  match l with
  | [] => None
  | f :: l' =>
      match newest key x l' with
      | Some p => Some (S p)
      | None => if decide (key f = x) then Some 0%nat else None
      end
  end.

(** The unique id of the entry at position [p], when that position is not
    below [k]; zero otherwise. *)
Definition idFrom (k : nat) (ec : Z) (o : option nat) : Z :=
  match o with
  | Some p => if decide (k <= p)%nat then ec + Z.of_nat p + 1 else 0
  | None => 0
  end.

(** [m] maps every key to the unique id of the newest entry of [l] that has
    this key and sits at position [k] or later, and to zero (or nothing)
    when there is none. *)
Definition indexes {K : Type} `{Countable K} (key : HeaderField → K)
    (k : nat) (ec : Z) (l : list HeaderField) (m : gmap K Z) : Prop :=
  ∀ x, mapGet m x = idFrom k ec (newest key x l).

(** The table invariant: no unique id has wrapped, and both maps point at
    the newest live entry of each key. *)
Record tableInv (t : headerFieldTable) : Prop := mkTableInv {
  inv_evictCount : 0 <= evictCount t;
  inv_bound : evictCount t + len t < two64;
  inv_byName : indexes keyName 0 (evictCount t) (ents t) (byName t);
  inv_byNameValue : indexes keyPair 0 (evictCount t) (ents t) (byNameValue t)
}.

(** The wire index of the entry stored at position [p] of [ents]. *)
Definition indexAt (kind : tableKind) (t : headerFieldTable) (p : nat) : Z :=
  match kind with
  | Static => Z.of_nat p + 1
  | Dynamic => len t - Z.of_nat p
  end.

(** Table states reachable from an initialised empty table by [addEntry]
    and by calls of [evictOldest] that return. *)
Inductive reachable : headerFieldTable → Prop :=
| reachable_init : reachable init
| reachable_add t f : reachable t → reachable (addEntry f t)
| reachable_evict t n t' :
    reachable t → is_int n → evictOldest n t = Ok t' → reachable t'.

(** A caller's operation on a table, and a run of a list of them that also
    records the unique id each [addEntry] assigns. *)
Inductive op : Type :=
| OpAdd (f : HeaderField)
| OpEvict (n : Z).

Fixpoint run (ops : list op) (t : headerFieldTable)
  : result (headerFieldTable * list Z) :=
  match ops with
  | [] => Ok (t, [])
  | OpAdd f :: ops' =>
      r ← run ops' (addEntry f t); Ok (r.1, newId t :: r.2)
  | OpEvict n :: ops' =>
      t' ← evictOldest n t; run ops' t'
  end.

(** Number of [addEntry] calls in a list of operations. *)
Fixpoint adds (ops : list op) : nat :=
  match ops with
  | [] => O
  | OpAdd _ :: ops' => S (adds ops')
  | OpEvict _ :: ops' => adds ops'
  end.

(** * Properties *)

(** ** Wrap-around arithmetic *)

Section arithmetic.

Lemma two64_pos : 0 < two64.
Proof. reflexivity. Qed.

Lemma two63_double : two64 = 2 * two63.
Proof. reflexivity. Qed.

Lemma two63_pos : 0 < two63.
Proof. reflexivity. Qed.

Lemma u64_small z : 0 <= z < two64 → u64 z = z.
Proof. intros Hz. unfold u64. by apply Z.mod_small. Qed.

Lemma u64_range z : 0 <= u64 z < two64.
Proof. unfold u64. apply Z.mod_pos_bound, two64_pos. Qed.

Lemma add64_small a b : 0 <= a + b < two64 → add64 a b = a + b.
Proof. apply u64_small. Qed.

Lemma sub64_small a b : 0 <= a - b < two64 → sub64 a b = a - b.
Proof. apply u64_small. Qed.

(** An addition that leaves the range comes back below its left
    operand: the test [evictOldest] uses to detect overflow. *)
Lemma add64_overflow a b :
  is_u64 a → is_u64 b → two64 <= a + b → add64 a b = a + b - two64.
Proof.
  intros Ha Hb Hov. unfold add64, u64, is_u64 in *.
  symmetry. apply (Z.mod_unique _ _ 1); lia.
Qed.

Lemma add64_lt_iff a b :
  is_u64 a → is_u64 b → add64 a b < a ↔ two64 <= a + b.
Proof.
  intros Ha Hb. destruct (decide (two64 <= a + b)) as [Hov|Hno].
  - rewrite add64_overflow by done. unfold is_u64 in *. lia.
  - rewrite add64_small by (unfold is_u64 in *; lia).
    unfold is_u64 in *. lia.
Qed.

End arithmetic.

(** ** Slices *)

Section slices.

Lemma copySlice_drop {A : Type} (l : list A) (n : nat) :
  (n <= length l)%nat →
  copySlice l (drop n l) = drop n l ++ drop (length l - n) l.
Proof.
  intros Hn. unfold copySlice.
  rewrite length_drop. f_equal.
  apply take_ge. rewrite length_drop. lia.
Qed.

Lemma zeroLoop_length cnt k l : length (zeroLoop cnt k l) = length l.
Proof.
  revert k l. induction cnt as [|cnt IH]; intros k l; simpl; [done|].
  by rewrite IH, length_insert.
Qed.

(** The zeroing loop leaves everything below its start untouched. *)
Lemma zeroLoop_take cnt k l : take k (zeroLoop cnt k l) = take k l.
Proof.
  revert k l. induction cnt as [|cnt IH]; intros k l; simpl; [done|].
  assert (Hk : take k (zeroLoop cnt (S k) (<[k:=zeroHeaderField]> l))
               = take k (take (S k) (zeroLoop cnt (S k) (<[k:=zeroHeaderField]> l)))).
  { rewrite take_take. f_equal. lia. }
  rewrite Hk, IH, take_take.
  replace (k `min` S k)%nat with k by lia.
  apply take_insert_ge. lia.
Qed.

(** Net effect of [copy], the zeroing loop and the reslice. *)
Lemma evict_slice (l : list HeaderField) (n : nat) :
  (n <= length l)%nat →
  let e1 := copySlice l (drop n l) in
  let e2 := zeroLoop n (length e1 - n) e1 in
  take (length e2 - n) e2 = drop n l.
Proof.
  intros Hn e1 e2.
  assert (He1 : length e1 = length l).
  { unfold e1. rewrite copySlice_drop by done.
    rewrite length_app, !length_drop. lia. }
  unfold e2. rewrite zeroLoop_length, zeroLoop_take.
  unfold e1. rewrite copySlice_drop by done.
  rewrite length_app, !length_drop.
  replace (length l - n + (length l - (length l - n)) - n)%nat
    with (length (drop n l)) by (rewrite length_drop; lia).
  by rewrite take_app_length.
Qed.

End slices.

(** ** The eviction loop and the shape of [evictOldest]'s result *)

Section eviction.

Lemma evictLoop_frame cnt k t :
  0 <= k → k + Z.of_nat cnt <= len t →
  ∃ t1, evictLoop cnt k t = Ok t1
        ∧ ents t1 = ents t ∧ evictCount t1 = evictCount t.
Proof.
  revert k t. induction cnt as [|cnt IH]; intros k t Hk Hlen; simpl.
  - by exists t.
  - destruct (ents t !! Z.to_nat k) as [f|] eqn:Hf.
    + destruct (IH (k + 1) (evictEntry k f t)) as (t1 & Hrun & He & Hc).
      * lia.
      * unfold len in *. simpl. lia.
      * exists t1. by rewrite Hrun.
    + apply lookup_ge_None in Hf. unfold len in Hlen. lia.
Qed.

(** With [0 <= n <= len], the only panic left is the overflow test; the
    slice that remains is the old one without its first [n] elements. *)
Lemma evictOldest_unfold n t :
  0 <= n <= len t →
  ∃ t1, evictLoop (Z.to_nat n) 0 t = Ok t1
        ∧ ents t1 = ents t ∧ evictCount t1 = evictCount t
        ∧ evictOldest n t =
            if decide (add64 (evictCount t) (u64 n) < evictCount t)
            then Panic PanicEvictCountOverflow
            else Ok {| ents := drop (Z.to_nat n) (ents t);
                       evictCount := add64 (evictCount t) (u64 n);
                       byName := byName t1;
                       byNameValue := byNameValue t1 |}.
Proof.
  intros Hn.
  destruct (evictLoop_frame (Z.to_nat n) 0 t) as (t1 & Hrun & He & Hc);
    [lia | lia |].
  exists t1. repeat split; try done.
  unfold evictOldest.
  rewrite decide_False by lia.
  rewrite Hrun. simpl.
  rewrite decide_False by lia.
  rewrite He, Hc.
  assert (Hnat : (Z.to_nat n <= length (ents t))%nat) by (unfold len in Hn; lia).
  pose proof (evict_slice (ents t) (Z.to_nat n) Hnat) as Hs. simpl in Hs.
  set (e1 := copySlice (ents t) (drop (Z.to_nat n) (ents t))) in *.
  replace (Z.to_nat (Z.of_nat (length e1) - (Z.of_nat (length e1) - n)))
    with (Z.to_nat n).
  2:{ lia. }
  replace (Z.to_nat (Z.of_nat (length e1) - n))
    with (length e1 - Z.to_nat n)%nat by lia.
  set (e2 := zeroLoop (Z.to_nat n) (length e1 - Z.to_nat n) e1) in *.
  replace (Z.to_nat (Z.of_nat (length e2) - n))
    with (length e2 - Z.to_nat n)%nat by lia.
  by rewrite Hs.
Qed.

(** When [evictOldest] returns, its argument was a count within the
    table, and the entries that remain are the old ones without its
    first [n]. *)
Lemma evictOldest_Ok_inv n t t' :
  evictOldest n t = Ok t' →
  0 <= n <= len t
  ∧ ents t' = drop (Z.to_nat n) (ents t)
  ∧ evictCount t' = add64 (evictCount t) (u64 n)
  ∧ ¬ add64 (evictCount t) (u64 n) < evictCount t.
Proof.
  intros Hrun.
  assert (Hn : 0 <= n <= len t).
  { unfold evictOldest in Hrun.
    destruct (decide (n > len t)); [done|].
    destruct (evictLoop (Z.to_nat n) 0 t); simpl in Hrun; [|done].
    destruct (decide (n < 0)); [done|]. lia. }
  split; [done|].
  destruct (evictOldest_unfold n t Hn) as (t1 & _ & _ & _ & Heq).
  rewrite Heq in Hrun.
  destruct (decide (add64 (evictCount t) (u64 n) < evictCount t)); [done|].
  injection Hrun as <-. by simpl.
Qed.

End eviction.

(** ** The newest entry of a key *)

Section newest_facts.
Context {K : Type} `{Countable K} (key : HeaderField → K).

Lemma mapGet_insert_eq (m : gmap K Z) k v : mapGet (<[k := v]> m) k = v.
Proof. unfold mapGet. by rewrite lookup_insert_eq. Qed.

Lemma mapGet_insert_ne (m : gmap K Z) k k' v :
  k ≠ k' → mapGet (<[k := v]> m) k' = mapGet m k'.
Proof. intros Hne. unfold mapGet. by rewrite lookup_insert_ne. Qed.

Lemma newest_snoc x l f :
  newest key x (l ++ [f])
  = if decide (key f = x) then Some (length l) else newest key x l.
Proof.
  induction l as [|g l IH]; simpl.
  - by destruct (decide (key f = x)).
  - rewrite IH. destruct (decide (key f = x)); [done|].
    by destruct (newest key x l).
Qed.

Lemma newest_drop x l n :
  newest key x (drop n l)
  = match newest key x l with
    | Some p => if decide (n <= p)%nat then Some (p - n)%nat else None
    | None => None
    end.
Proof.
  revert l. induction n as [|n IH]; intros l.
  - rewrite drop_0. destruct (newest key x l) as [p|]; [|done].
    rewrite decide_True by lia. f_equal. lia.
  - destruct l as [|g l]; [done|]. simpl. rewrite IH.
    destruct (newest key x l) as [p|].
    + destruct (decide (n <= p)%nat), (decide (S n <= S p)%nat);
        try done; lia.
    + destruct (decide (key g = x)); [|done].
      by rewrite decide_False by lia.
Qed.

Lemma newest_lookup x l p :
  newest key x l = Some p → ∃ f, l !! p = Some f ∧ key f = x.
Proof.
  revert p. induction l as [|g l IH]; intros p; simpl; [done|].
  destruct (newest key x l) as [q|].
  - intros [= <-]. by apply IH.
  - destruct (decide (key g = x)); [|done].
    intros [= <-]. by exists g.
Qed.

Lemma newest_max x l p q g :
  newest key x l = Some p → l !! q = Some g → key g = x → (q <= p)%nat.
Proof.
  revert p q. induction l as [|h l IH]; intros p q; simpl; [done|].
  destruct (newest key x l) as [r|] eqn:Hr.
  - intros [= <-] Hq Hg. destruct q as [|q]; [lia|].
    simpl in Hq. specialize (IH r q eq_refl Hq Hg). lia.
  - destruct (decide (key h = x)); [|done].
    intros [= <-] Hq Hg. destruct q as [|q]; [lia|].
    simpl in Hq. exfalso. clear IH.
    revert q Hq. induction l as [|h' l IHl]; intros q Hq; [done|].
    simpl in Hr. destruct (newest key x l); [done|].
    destruct (decide (key h' = x)); [done|].
    destruct q as [|q]; simpl in Hq; [congruence|]. by eapply IHl.
Qed.

Lemma newest_None x l q g :
  newest key x l = None → l !! q = Some g → key g ≠ x.
Proof.
  revert q. induction l as [|h l IH]; intros q; simpl; [done|].
  destruct (newest key x l); [done|].
  destruct (decide (key h = x)); [done|].
  intros _ Hq. destruct q as [|q]; simpl in Hq; [congruence|].
  by eapply IH.
Qed.

(** An entry with key [x] makes [newest] find one at least as new. *)
Lemma newest_ge x l q g :
  l !! q = Some g → key g = x →
  ∃ p, newest key x l = Some p ∧ (q <= p)%nat.
Proof.
  intros Hq Hg. destruct (newest key x l) as [p|] eqn:Hp.
  - exists p. split; [done|]. by eapply newest_max.
  - by destruct (newest_None x l q g Hp Hq).
Qed.

Lemma newest_lt x l p : newest key x l = Some p → (p < length l)%nat.
Proof.
  intros (f & Hf & _)%newest_lookup. by eapply lookup_lt_Some.
Qed.

End newest_facts.

(** ** Maintenance of one index map *)

Section index_maintenance.
Context {K : Type} `{Countable K} (key : HeaderField → K).

Lemma indexes_empty ec : indexes key 0 ec [] (∅ : gmap K Z).
Proof. intros x. unfold mapGet. by rewrite lookup_empty. Qed.

(** [addEntry]'s unconditional overwrite. *)
Lemma indexes_add ec l m f :
  indexes key 0 ec l m →
  indexes key 0 ec (l ++ [f]) (<[key f := ec + Z.of_nat (length l) + 1]> m).
Proof.
  intros Hm x. rewrite newest_snoc.
  destruct (decide (key f = x)) as [<-|Hne].
  - rewrite mapGet_insert_eq. unfold idFrom. by rewrite decide_True by lia.
  - rewrite mapGet_insert_ne by done. apply Hm.
Qed.

(** One iteration of [evictOldest]'s conditional clear. *)
Lemma indexes_evict ec l m k f :
  l !! k = Some f → 0 <= ec → ec + Z.of_nat (length l) < two64 →
  indexes key k ec l m →
  indexes key (S k) ec l
    (if decide (mapGet m (key f) = add64 (add64 ec (u64 (Z.of_nat k))) 1)
     then <[key f := 0]> m else m).
Proof.
  intros Hk Hec Hb Hm x.
  assert (Hlt : (k < length l)%nat) by (by eapply lookup_lt_Some).
  rewrite (u64_small (Z.of_nat k)) by lia.
  rewrite (add64_small ec) by lia.
  rewrite add64_small by lia.
  destruct (decide (key f = x)) as [<-|Hne].
  - destruct (newest_ge key (key f) l k f Hk eq_refl) as (p & Hp & Hkp).
    pose proof (Hm (key f)) as Hget. rewrite Hp in Hget. unfold idFrom in Hget.
    rewrite decide_True in Hget by done.
    rewrite Hp. unfold idFrom.
    destruct (decide (mapGet m (key f) = ec + Z.of_nat k + 1)) as [Heq|Hneq].
    + rewrite mapGet_insert_eq. by rewrite decide_False by lia.
    + rewrite Hget. by rewrite decide_True by lia.
  - assert (Hsame : mapGet
                      (if decide (mapGet m (key f) = ec + Z.of_nat k + 1)
                       then <[key f := 0]> m else m) x = mapGet m x).
    { destruct (decide (mapGet m (key f) = ec + Z.of_nat k + 1)); [|done].
      by apply mapGet_insert_ne. }
    rewrite Hsame, Hm.
    destruct (newest key x l) as [p|] eqn:Hp; [|done]. unfold idFrom.
    destruct (newest_lookup key x l p Hp) as (g & Hg & Hgx).
    assert (p ≠ k) by (intros ->; congruence).
    destruct (decide (k <= p)%nat), (decide (S k <= p)%nat); try done; lia.
Qed.

(** Dropping the evicted prefix and advancing [evictCount]. *)
Lemma indexes_drop ec l m n :
  indexes key n ec l m →
  indexes key 0 (ec + Z.of_nat n) (drop n l) m.
Proof.
  intros Hm x. rewrite Hm, newest_drop.
  destruct (newest key x l) as [p|]; [|done]. unfold idFrom.
  destruct (decide (n <= p)%nat); [|done].
  rewrite decide_True by lia. lia.
Qed.

(** A map that honours the invariant never holds the id of an entry that
    is gone or not yet there. *)
Lemma indexes_live ec l m x :
  indexes key 0 ec l m → mapGet m x ≠ 0 →
  ∃ p f, newest key x l = Some p ∧ l !! p = Some f ∧ key f = x
         ∧ mapGet m x = ec + Z.of_nat p + 1.
Proof.
  intros Hm Hnz. rewrite Hm in Hnz. pose proof (Hm x) as Hx.
  destruct (newest key x l) as [p|] eqn:Hp; [|done].
  destruct (newest_lookup key x l p Hp) as (f & Hf & Hfx).
  exists p, f. unfold idFrom in Hx. by rewrite decide_True in Hx by lia.
Qed.

End index_maintenance.

(** ** The table invariant is kept by every operation *)

Section invariant.

Lemma len_nonneg t : 0 <= len t.
Proof. unfold len. lia. Qed.

Lemma len_addEntry f t : len (addEntry f t) = len t + 1.
Proof. unfold len. simpl. rewrite length_app. simpl. lia. Qed.

Lemma newId_exact t :
  0 <= evictCount t → evictCount t + len t + 1 < two64 →
  newId t = evictCount t + len t + 1.
Proof.
  intros Hec Hb. pose proof (len_nonneg t). unfold newId.
  rewrite (u64_small (len t)) by lia.
  rewrite (add64_small (len t)) by lia.
  rewrite add64_small by lia. lia.
Qed.

Lemma tableInv_init : tableInv init.
Proof.
  split; simpl.
  - done.
  - reflexivity.
  - apply indexes_empty.
  - apply indexes_empty.
Qed.

Lemma tableInv_addEntry f t :
  tableInv t → evictCount t + len t + 1 < two64 → tableInv (addEntry f t).
Proof.
  intros [Hec Hb Hn Hp] Hroom. split.
  - done.
  - rewrite len_addEntry. simpl. lia.
  - unfold addEntry. simpl. rewrite newId_exact by done.
    replace (evictCount t + len t + 1)
      with (evictCount t + Z.of_nat (length (ents t)) + 1) by done.
    by apply (indexes_add keyName).
  - unfold addEntry. simpl. rewrite newId_exact by done.
    replace (evictCount t + len t + 1)
      with (evictCount t + Z.of_nat (length (ents t)) + 1) by done.
    by apply (indexes_add keyPair).
Qed.

Lemma evictLoop_indexes cnt k t t1 :
  0 <= evictCount t → evictCount t + len t < two64 →
  evictLoop cnt (Z.of_nat k) t = Ok t1 →
  indexes keyName k (evictCount t) (ents t) (byName t) →
  indexes keyPair k (evictCount t) (ents t) (byNameValue t) →
  indexes keyName (k + cnt) (evictCount t) (ents t) (byName t1)
  ∧ indexes keyPair (k + cnt) (evictCount t) (ents t) (byNameValue t1).
Proof.
  revert k t. induction cnt as [|cnt IH]; intros k t Hec Hb Hrun Hn Hp.
  - simpl in Hrun. injection Hrun as <-.
    by rewrite Nat.add_0_r.
  - simpl in Hrun. rewrite Nat2Z.id in Hrun.
    destruct (ents t !! k) as [f|] eqn:Hf; [|done].
    replace (Z.of_nat k + 1) with (Z.of_nat (S k)) in Hrun by lia.
    replace (k + S cnt)%nat with (S k + cnt)%nat by lia.
    apply (IH (S k) (evictEntry (Z.of_nat k) f t)); try done.
    + by apply (indexes_evict keyName).
    + by apply (indexes_evict keyPair).
Qed.

(** On a table that honours the invariant, a returning [evictOldest]
    advances [evictCount] by exactly [n] and keeps the invariant. *)
Lemma tableInv_evictOldest n t t' :
  tableInv t → evictOldest n t = Ok t' →
  tableInv t' ∧ evictCount t' = evictCount t + n
  ∧ ents t' = drop (Z.to_nat n) (ents t).
Proof.
  intros [Hec Hb Hn Hp] Hrun.
  destruct (evictOldest_Ok_inv n t t' Hrun) as (Hrange & He & Hc & _).
  destruct (evictOldest_unfold n t Hrange) as (t1 & Hloop & He1 & Hc1 & Heq).
  rewrite Heq in Hrun.
  destruct (decide (add64 (evictCount t) (u64 n) < evictCount t)); [done|].
  injection Hrun as <-. simpl.
  rewrite (u64_small n) by lia. rewrite add64_small by lia.
  replace 0 with (Z.of_nat 0) in Hloop by done.
  destruct (evictLoop_indexes _ _ _ _ Hec Hb Hloop Hn Hp) as [Hn1 Hp1].
  simpl in Hn1, Hp1.
  split; [|done]. split; simpl.
  - lia.
  - unfold len in *. simpl. rewrite length_drop. lia.
  - replace (evictCount t + n)
      with (evictCount t + Z.of_nat (Z.to_nat n)) by lia.
    by apply indexes_drop.
  - replace (evictCount t + n)
      with (evictCount t + Z.of_nat (Z.to_nat n)) by lia.
    by apply indexes_drop.
Qed.

Lemma reachable_u64 t : reachable t → is_u64 (evictCount t).
Proof.
  induction 1 as [|t f _ IH|t n t' _ IH Hn Hrun].
  - split; [done|reflexivity].
  - done.
  - destruct (evictOldest_Ok_inv n t t' Hrun) as (_ & _ & -> & _).
    apply u64_range.
Qed.

(** The number of entries ever inserted, [evictCount + len], never goes
    down along a run; as long as it has not reached [2^64] the invariant
    holds. *)
Lemma reachable_tableInv t :
  reachable t → evictCount t + len t < two64 → tableInv t.
Proof.
  induction 1 as [|t f Hr IH|t n t' Hr IH Hn Hrun]; intros Hb.
  - apply tableInv_init.
  - rewrite len_addEntry in Hb. simpl in Hb.
    apply tableInv_addEntry; [apply IH|]; lia.
  - destruct (evictOldest_Ok_inv n t t' Hrun) as (Hrange & He & Hc & Hno).
    pose proof (reachable_u64 t Hr) as Hu.
    assert (Hn64 : is_u64 n).
    { unfold is_u64, is_int in *. pose proof two63_double. pose proof two63_pos. lia. }
    rewrite (u64_small n) in Hc, Hno by done.
    rewrite add64_lt_iff in Hno by done.
    rewrite add64_small in Hc by (unfold is_u64 in *; lia).
    assert (Hb0 : evictCount t + len t < two64).
    { unfold len in *. rewrite He, length_drop in Hb. lia. }
    by destruct (tableInv_evictOldest n t t' (IH Hb0) Hrun) as (Hinv & _).
Qed.

End invariant.

(** ** Search on a table that honours the invariant *)

Section search_facts.

Lemma idToIndex_position kind t p :
  tableInv t → (p < length (ents t))%nat →
  idToIndex kind t (evictCount t + Z.of_nat p + 1) = Ok (indexAt kind t p).
Proof.
  intros [Hec Hb _ _] Hp. unfold idToIndex, len in *.
  rewrite decide_False by lia.
  rewrite (sub64_small (evictCount t + Z.of_nat p + 1)) by lia.
  rewrite (sub64_small _ 1) by lia.
  destruct kind; simpl; f_equal.
  - rewrite add64_small by lia. lia.
  - rewrite u64_small by lia. rewrite sub64_small by lia.
    unfold len. lia.
Qed.

Lemma searchName_newest kind t q :
  tableInv t →
  searchName kind t q =
    match newest keyName (Name q) (ents t) with
    | Some p => Ok (indexAt kind t p, false)
    | None => Ok (0, false)
    end.
Proof.
  intros Hinv. unfold searchName.
  pose proof (inv_byName t Hinv (Name q)) as Hget.
  destruct (newest keyName (Name q) (ents t)) as [p|] eqn:Hp.
  - unfold idFrom in Hget. rewrite decide_True in Hget by lia.
    rewrite Hget. rewrite decide_True by (destruct Hinv; lia).
    rewrite idToIndex_position; [done|done|]. by eapply newest_lt.
  - simpl in Hget. rewrite Hget. by rewrite decide_False by lia.
Qed.

(** [search] finds the newest entry with the wanted pair, else the newest
    entry with the wanted name. *)
Lemma search_newest kind t q :
  tableInv t →
  search kind t q =
    match (if Sensitive q then None
           else newest keyPair (keyPair q) (ents t)) with
    | Some p => Ok (indexAt kind t p, true)
    | None =>
        match newest keyName (Name q) (ents t) with
        | Some p => Ok (indexAt kind t p, false)
        | None => Ok (0, false)
        end
    end.
Proof.
  intros Hinv. unfold search.
  destruct (Sensitive q); simpl; [by apply searchName_newest|].
  pose proof (inv_byNameValue t Hinv (keyPair q)) as Hget.
  change (mkPairNameValue (Name q) (Value q)) with (keyPair q).
  destruct (newest keyPair (keyPair q) (ents t)) as [p|] eqn:Hp.
  - unfold idFrom in Hget. rewrite decide_True in Hget by lia.
    rewrite Hget. rewrite decide_True by (destruct Hinv; lia).
    rewrite idToIndex_position; [done|done|]. by eapply newest_lt.
  - simpl in Hget. rewrite Hget. rewrite decide_False by lia.
    by apply searchName_newest.
Qed.

Lemma reachable_addEntries fs t : reachable t → reachable (addEntries fs t).
Proof.
  revert t. induction fs as [|f fs IH]; intros t Hr; [done|].
  simpl. apply IH. by constructor.
Qed.

End search_facts.

(** ** HeaderField.Size *)

Section size.

Lemma two64_square : two64 = two32 * two32.
Proof. reflexivity. Qed.

(** Truncating an [int] result to [uint32] forgets the [int] wrap. *)
Lemma u32_int64 z : u32 (int64 z) = u32 z.
Proof.
  unfold u32, int64.
  rewrite (Z.mod_eq (z + two63) two64) by (pose proof two64_pos; lia).
  rewrite two64_square at 1.
  replace (z + two63 - two32 * two32 * ((z + two63) / two64) - two63)
    with (z + (- ((z + two63) / two64) * two32) * two32) by lia.
  apply Z_mod_plus_full.
Qed.

Lemma u32_small z : 0 <= z < two32 → u32 z = z.
Proof. apply Z.mod_small. Qed.

End size.

(** C8. For every header field, [Size] is [len(Name) + len(Value) + 32]
    reduced modulo [2^32]; it is a total function of the field alone, and
    whenever the sum fits 32 bits it is that sum exactly. *)
Theorem Size_law (f : HeaderField) :
  Size f = (strlen (Name f) + strlen (Value f) + 32) mod two32
  ∧ (strlen (Name f) + strlen (Value f) + 32 < two32 →
     Size f = strlen (Name f) + strlen (Value f) + 32).
Proof.
  assert (Hmod : Size f = u32 (strlen (Name f) + strlen (Value f) + 32)).
  { unfold Size. rewrite u32_int64. unfold u32.
    rewrite <- Zplus_mod_idemp_l. fold (u32 (int64 (strlen (Name f) + strlen (Value f)))).
    rewrite u32_int64. unfold u32. by rewrite Zplus_mod_idemp_l. }
  split; [done|].
  intros Hsmall. rewrite Hmod. apply u32_small. unfold strlen in *. lia.
Qed.

Lemma Size_law_witness :
  Size (mkHeaderField ":method" "GET" false) = 7 + 3 + 32.
Proof.
  apply (proj2 (Size_law (mkHeaderField ":method" "GET" false))).
  reflexivity.
Defined.

(** ** Insert-then-search scenarios *)

Section after_insert.
Variable t : headerFieldTable.
Hypothesis Hec : 0 <= evictCount t.
Hypothesis Hroom : evictCount t + len t + 1 < two64.

(** The entry just inserted has wire index 1 in a dynamic table. *)
Lemma idToIndex_newId f :
  idToIndex Dynamic (addEntry f t) (newId t) = Ok 1.
Proof.
  pose proof (len_nonneg t).
  rewrite newId_exact by done. unfold idToIndex.
  rewrite len_addEntry. simpl.
  rewrite decide_False by lia.
  rewrite (sub64_small (evictCount t + len t + 1)) by lia.
  rewrite (sub64_small _ 1) by lia.
  rewrite u64_small by lia. rewrite sub64_small by lia.
  f_equal. lia.
Qed.

Lemma newId_nonzero : newId t ≠ 0.
Proof. pose proof (len_nonneg t). rewrite newId_exact by done. lia. Qed.

Lemma search_after_addEntry f s :
  search Dynamic (addEntry f t) (mkHeaderField (Name f) (Value f) s)
  = Ok (1, negb s).
Proof.
  pose proof newId_nonzero as Hnz.
  unfold search, searchName. simpl.
  rewrite !mapGet_insert_eq.
  destruct s; simpl; rewrite decide_True by done;
    by rewrite idToIndex_newId.
Qed.

End after_insert.

Lemma searchName_not_exact kind t q i b :
  searchName kind t q = Ok (i, b) → b = false.
Proof.
  unfold searchName.
  destruct (decide (mapGet (byName t) (Name q) ≠ 0)); [|by intros [= _ <-]].
  destruct (idToIndex kind t _); simpl; [by intros [= _ <-]|done].
Qed.

(** C1, as stated, fails: [addEntry] records a sensitive field in
    [byNameValue] like any other, and the non-sensitive search for the
    same pair is an exact match. *)
Lemma sensitive_entry_is_found_exactly :
  mapGet (byNameValue (addEntry (mkHeaderField "auth" "secret" true) init))
         (mkPairNameValue "auth" "secret") = 1
  ∧ search Dynamic (addEntry (mkHeaderField "auth" "secret" true) init)
           (mkHeaderField "auth" "secret" false) = Ok (1, true).
Proof. split; reflexivity. Qed.

(** C1, amended. [addEntry] indexes a field under its name and under its
    pair whatever its [Sensitive] flag; after the insertion a search for
    the same pair is an exact match at index 1 when the searched field is
    not sensitive and a name-only match at index 1 when the searched field
    is sensitive. It is the flag of the searched field that excludes the
    name+value probe: a search for a sensitive field is never exact. *)
Theorem sensitive_flag_gates_the_query (t : headerFieldTable) (f : HeaderField) :
  0 <= evictCount t → evictCount t + len t + 1 < two64 →
  mapGet (byName (addEntry f t)) (Name f) = newId t
  ∧ mapGet (byNameValue (addEntry f t)) (keyPair f) = newId t
  ∧ search Dynamic (addEntry f t) (mkHeaderField (Name f) (Value f) false)
    = Ok (1, true)
  ∧ search Dynamic (addEntry f t) (mkHeaderField (Name f) (Value f) true)
    = Ok (1, false)
  ∧ (∀ kind t0 q i b,
       Sensitive q = true → search kind t0 q = Ok (i, b) → b = false).
Proof.
  intros Hec Hroom. repeat split.
  - apply mapGet_insert_eq.
  - apply mapGet_insert_eq.
  - by apply (search_after_addEntry t Hec Hroom f false).
  - by apply (search_after_addEntry t Hec Hroom f true).
  - intros kind t0 q i b Hs. unfold search. rewrite Hs. simpl.
    apply searchName_not_exact.
Qed.

Lemma sensitive_flag_gates_the_query_witness :
  search Dynamic (addEntry (mkHeaderField "auth" "secret" true) init)
         (mkHeaderField "auth" "secret" true) = Ok (1, false).
Proof.
  refine (proj1 (proj2 (proj2 (proj2
    (sensitive_flag_gates_the_query init (mkHeaderField "auth" "secret" true) _ _))))).
  - simpl. lia.
  - reflexivity.
Defined.



(** ** idToIndex *)

Section index_conversion.
Variable t : headerFieldTable.
Variable id : Z.
Hypothesis Hwf : wfTable t.
Hypothesis Hid : is_u64 id.
Hypothesis Hlive : evictCount t < id.

Lemma idToIndex_k : sub64 (sub64 id (evictCount t)) 1 = id - evictCount t - 1.
Proof.
  destruct Hwf as [Hec _]. unfold is_u64 in *.
  rewrite (sub64_small id) by lia. apply sub64_small. lia.
Qed.

Lemma idToIndex_static :
  idToIndex Static t id = Ok ((id - evictCount t - 1) + 1).
Proof.
  destruct Hwf as [Hec _]. unfold is_u64 in *.
  unfold idToIndex. rewrite decide_False by lia.
  rewrite idToIndex_k. f_equal. apply add64_small. lia.
Qed.

Lemma idToIndex_dynamic :
  idToIndex Dynamic t id = Ok ((len t - (id - evictCount t - 1)) mod two64).
Proof.
  destruct Hwf as [Hec Hlen]. pose proof (len_nonneg t).
  pose proof two63_double. pose proof two63_pos.
  unfold idToIndex. rewrite decide_False by lia.
  rewrite idToIndex_k. rewrite u64_small by lia. done.
Qed.

Lemma idToIndex_dynamic_live :
  id <= evictCount t + len t →
  idToIndex Dynamic t id = Ok (len t - (id - evictCount t - 1))
  ∧ 1 <= len t - (id - evictCount t - 1) <= len t.
Proof.
  intros Hin. destruct Hwf as [Hec Hlen].
  pose proof two63_double. pose proof two63_pos. unfold is_u64 in *.
  rewrite idToIndex_dynamic. split; [|lia].
  f_equal. apply Z.mod_small. lia.
Qed.

End index_conversion.

(** Three entries with distinct names, inserted into an empty dynamic
    table: the last one is found at index 1, the first one at index 3. *)
Lemma search_three_distinct (a b c : HeaderField) :
  Name a ≠ Name b → Name a ≠ Name c → Name b ≠ Name c →
  search Dynamic (addEntries [a; b; c] init) c = Ok (1, negb (Sensitive c))
  ∧ search Dynamic (addEntries [a; b; c] init) a = Ok (3, negb (Sensitive a)).
Proof.
  intros Hab Hac Hbc.
  assert (Hinv : tableInv (addEntries [a; b; c] init)).
  { apply reachable_tableInv; [|reflexivity].
    apply reachable_addEntries. constructor. }
  rewrite !search_newest by done.
  assert (Hpa : keyPair c ≠ keyPair a) by (unfold keyPair; congruence).
  assert (Hpb : keyPair b ≠ keyPair a) by (unfold keyPair; congruence).
  change (ents (addEntries [a; b; c] init)) with [a; b; c].
  unfold newest, keyName.
  rewrite !(decide_True (P := keyPair c = keyPair c)) by done.
  rewrite !(decide_True (P := Name c = Name c)) by done.
  rewrite !(decide_False (P := keyPair c = keyPair a)) by done.
  rewrite !(decide_False (P := keyPair b = keyPair a)) by done.
  rewrite !(decide_True (P := keyPair a = keyPair a)) by done.
  rewrite !(decide_False (P := Name c = Name a)) by done.
  rewrite !(decide_False (P := Name b = Name a)) by done.
  rewrite !(decide_True (P := Name a = Name a)) by done.
  split.
  - by destruct (Sensitive c).
  - by destruct (Sensitive a).
Qed.

(** C3. For a unique id above [evictCount], [idToIndex] returns
    [(id - evictCount - 1) + 1] on the static table and
    [len(ents) - (id - evictCount - 1)] (in [uint64] arithmetic) on a
    dynamic table; for the ids of the entries in the table the latter is
    exact, index 1 for the newest entry and [len(ents)] for the oldest.
    With entries of distinct names inserted in the order A, B, C into an
    empty dynamic table, the search for C returns index 1 and the search
    for A returns index 3. *)
Theorem idToIndex_formula (t : headerFieldTable) (id : Z) :
  wfTable t → is_u64 id → evictCount t < id →
  idToIndex Static t id = Ok ((id - evictCount t - 1) + 1)
  ∧ idToIndex Dynamic t id = Ok ((len t - (id - evictCount t - 1)) mod two64)
  ∧ (id <= evictCount t + len t →
     idToIndex Dynamic t id = Ok (len t - (id - evictCount t - 1))
     ∧ 1 <= len t - (id - evictCount t - 1) <= len t)
  ∧ (id = evictCount t + len t → idToIndex Dynamic t id = Ok 1)
  ∧ (id = evictCount t + 1 → 0 < len t → idToIndex Dynamic t id = Ok (len t))
  ∧ (∀ a b c : HeaderField,
       Name a ≠ Name b → Name a ≠ Name c → Name b ≠ Name c →
       search Dynamic (addEntries [a; b; c] init) c = Ok (1, negb (Sensitive c))
       ∧ search Dynamic (addEntries [a; b; c] init) a = Ok (3, negb (Sensitive a))).
Proof.
  intros Hwf Hid Hlive. repeat apply conj.
  - by apply idToIndex_static.
  - by apply idToIndex_dynamic.
  - by apply idToIndex_dynamic_live.
  - intros Heq.
    destruct (idToIndex_dynamic_live t id Hwf Hid Hlive) as [-> _]; [lia|].
    f_equal. lia.
  - intros Heq Hpos.
    destruct (idToIndex_dynamic_live t id Hwf Hid Hlive) as [-> _]; [lia|].
    f_equal. lia.
  - apply search_three_distinct.
Qed.

Lemma idToIndex_formula_witness :
  idToIndex Static staticTable 3 = Ok ((3 - evictCount staticTable - 1) + 1)
  ∧ idToIndex Dynamic (addEntries [pair "a" "1"; pair "b" "2"; pair "c" "3"] init) 3
    = Ok 1.
Proof.
  split.
  - refine (proj1 (idToIndex_formula staticTable 3 _ _ _)).
    + split; [split|]; reflexivity || (simpl; lia).
    + split; reflexivity || lia.
    + reflexivity.
  - refine (proj1 (proj2 (proj2 (proj2
      (idToIndex_formula (addEntries [pair "a" "1"; pair "b" "2"; pair "c" "3"] init) 3 _ _ _)))) _).
    + split; [split|]; reflexivity || (simpl; lia).
    + split; reflexivity || lia.
    + reflexivity.
    + reflexivity.
Defined.

(** ** The static table *)

Lemma staticTable_ents : ents staticTable = staticEntries.
Proof. reflexivity. Qed.

Lemma staticTable_inv : tableInv staticTable.
Proof.
  apply reachable_tableInv; [|reflexivity].
  apply (reachable_addEntries staticEntries init). constructor.
Qed.

(** C10, as stated, fails: the ten empty-pair entries sit at positions 62 to
    71, and the search for the empty pair returns the last of them, 71,
    not 70. *)
Lemma static_empty_pair_is_71 :
  search Static staticTable (pair EmptyString EmptyString) = Ok (71, true)
  ∧ search Static staticTable (pair EmptyString EmptyString) ≠ Ok (70, true).
Proof.
  split; [reflexivity|].
  intros Heq. vm_compute in Heq. discriminate Heq.
Qed.

(** C10, amended. On the static table a search resolves to the
    last-inserted entry with the wanted pair, else to the last-inserted
    entry with the wanted name, at its 1-based position, not to the first:
    the search for (":method","PUT") returns (3, false), the index of
    (":method","POST") and not that of (":method","GET"); the repeated
    empty-pair padding entries make the search for the empty pair an exact
    match at the position of the last of them, not of an earlier one. *)
Theorem static_search_newest_wins :
  (∀ q : HeaderField,
     search Static staticTable q =
       match (if Sensitive q then None
              else newest keyPair (keyPair q) staticEntries) with
       | Some p => Ok (Z.of_nat p + 1, true)
       | None =>
           match newest keyName (Name q) staticEntries with
           | Some p => Ok (Z.of_nat p + 1, false)
           | None => Ok (0, false)
           end
       end)
  ∧ search Static staticTable (pair ":method" "PUT") = Ok (3, false)
  ∧ staticEntries !! 1%nat = Some (pair ":method" "GET")
  ∧ staticEntries !! 2%nat = Some (pair ":method" "POST")
  ∧ (∃ p : nat,
       search Static staticTable (pair EmptyString EmptyString)
       = Ok (Z.of_nat p + 1, true)
       ∧ staticEntries !! p = Some (pair EmptyString EmptyString)
       ∧ (∀ j g, (p < j)%nat → staticEntries !! j = Some g →
                 keyPair g ≠ keyPair (pair EmptyString EmptyString))
       ∧ ∃ p' : nat, (p' < p)%nat
                     ∧ staticEntries !! p' = Some (pair EmptyString EmptyString)).
Proof.
  repeat apply conj; try reflexivity.
  - intros q. rewrite (search_newest Static staticTable q staticTable_inv).
    by rewrite staticTable_ents.
  - assert (Hlast : newest keyPair (keyPair (pair EmptyString EmptyString))
                      staticEntries = Some 70%nat) by reflexivity.
    exists 70%nat. repeat apply conj; try reflexivity.
    + intros j g Hj Hg Hk.
      pose proof (newest_max keyPair _ _ _ _ _ Hlast Hg Hk). lia.
    + exists 61%nat. split; [lia|reflexivity].
Qed.

(** ** evictOldest *)

(** The two outcomes of [evictOldest] for a count within the table: the
    overflow panic, or the table without its first [n] entries. *)
Lemma evictOldest_in_range (t : headerFieldTable) (n : Z) :
  wfTable t → 0 <= n <= len t →
  ∃ t1, evictOldest n t =
          if decide (two64 <= evictCount t + n)
          then Panic PanicEvictCountOverflow
          else Ok {| ents := drop (Z.to_nat n) (ents t);
                     evictCount := evictCount t + n;
                     byName := byName t1;
                     byNameValue := byNameValue t1 |}.
Proof.
  intros [Hec Hlen] Hn.
  assert (Hn64 : is_u64 n).
  { pose proof two63_double. pose proof two63_pos. unfold is_u64. lia. }
  destruct (evictOldest_unfold n t Hn) as (t1 & _ & _ & _ & Heq).
  rewrite (u64_small n) in Heq by done.
  pose proof (add64_lt_iff (evictCount t) n Hec Hn64) as Hov.
  exists t1. rewrite Heq.
  destruct (decide (two64 <= evictCount t + n)).
  - by rewrite decide_True by lia.
  - rewrite decide_False by lia.
    rewrite add64_small by (unfold is_u64 in *; lia). done.
Qed.

(** C4. For every table and every [n] with [0 <= n <= len(ents)]:
    [evictOldest(n)] returns unless the counter would overflow, and after it
    the entries are the former entries without their first [n] elements
    and [evictCount] is its former value plus exactly [n]. *)
Theorem evictOldest_drops_prefix (t : headerFieldTable) (n : Z) :
  wfTable t → 0 <= n <= len t →
  (evictCount t + n < two64 →
   ∃ t', evictOldest n t = Ok t'
         ∧ ents t' = drop (Z.to_nat n) (ents t)
         ∧ evictCount t' = evictCount t + n)
  ∧ (two64 <= evictCount t + n →
     evictOldest n t = Panic PanicEvictCountOverflow)
  ∧ (∀ t', evictOldest n t = Ok t' →
       ents t' = drop (Z.to_nat n) (ents t)
       ∧ evictCount t' = evictCount t + n).
Proof.
  intros Hwf Hn.
  destruct (evictOldest_in_range t n Hwf Hn) as (t1 & Heq).
  rewrite Heq. repeat apply conj.
  - intros Hfit. rewrite decide_False by lia. by eexists.
  - intros Hover. by rewrite decide_True by lia.
  - intros t'. destruct (decide (two64 <= evictCount t + n)); [done|].
    by intros [= <-].
Qed.

Lemma evictOldest_drops_prefix_witness :
  ∃ t', evictOldest 2
          (addEntries [pair "k1" "v1"; pair "k2" "v2"; pair "k1" "v3"] init)
        = Ok t'
        ∧ ents t' = [pair "k1" "v3"]
        ∧ evictCount t' = 0 + 2.
Proof.
  refine (proj1 (evictOldest_drops_prefix
    (addEntries [pair "k1" "v1"; pair "k2" "v2"; pair "k1" "v3"] init) 2 _ _) _).
  - split; [split|]; reflexivity || (simpl; lia).
  - split; vm_compute; discriminate.
  - reflexivity.
Defined.

(** C7, as stated, fails: [n] is an [int], and a negative count is not
    greater than [len(ents)], yet [evictOldest] panics on it (the slice
    expression [t.ents[n:]] is out of bounds). *)
Lemma evictOldest_negative_panics :
  ¬ (-1 > len init) ∧ evictOldest (-1) init = Panic (PanicSliceBounds (-1)).
Proof. split; [unfold len; simpl; lia|reflexivity]. Qed.

(** C7, amended. [evictOldest(n)] panics if and only if [n > len(ents)],
    or [n] is negative, or adding [n] to [evictCount] would overflow the
    counter; otherwise it returns. [idToIndex(id)] panics if and only if
    [id <= evictCount]. Nothing is clamped or wrapped: each violation has
    its own panic. *)
Theorem fatal_violations_panic (t : headerFieldTable) :
  wfTable t →
  (∀ n, panics (evictOldest n t)
        ↔ n > len t ∨ n < 0 ∨ (n <= len t ∧ two64 <= evictCount t + n))
  ∧ (∀ n, n > len t → evictOldest n t = Panic (PanicEvictOldest n (len t)))
  ∧ (∀ n, n < 0 → evictOldest n t = Panic (PanicSliceBounds n))
  ∧ (∀ n, 0 <= n <= len t → two64 <= evictCount t + n →
          evictOldest n t = Panic PanicEvictCountOverflow)
  ∧ (∀ kind id, panics (idToIndex kind t id) ↔ id <= evictCount t)
  ∧ (∀ kind id, id <= evictCount t →
          idToIndex kind t id = Panic (PanicIdEvicted id (evictCount t))).
Proof.
  intros Hwf.
  assert (Hbig : ∀ n, n > len t →
            evictOldest n t = Panic (PanicEvictOldest n (len t))).
  { intros n Hn. unfold evictOldest. by rewrite decide_True by done. }
  assert (Hneg : ∀ n, n < 0 → evictOldest n t = Panic (PanicSliceBounds n)).
  { intros n Hn. pose proof (len_nonneg t). unfold evictOldest.
    rewrite decide_False by lia.
    replace (Z.to_nat n) with 0%nat by lia. simpl.
    by rewrite decide_True by done. }
  assert (Hover : ∀ n, 0 <= n <= len t → two64 <= evictCount t + n →
            evictOldest n t = Panic PanicEvictCountOverflow).
  { intros n Hn Ho.
    destruct (evictOldest_in_range t n Hwf Hn) as (t1 & ->).
    by rewrite decide_True by done. }
  repeat apply conj; try done.
  - intros n. split.
    + intros Hp.
      destruct (decide (n > len t)); [by left|].
      destruct (decide (n < 0)); [by (right; left)|].
      right; right. split; [lia|].
      destruct (decide (two64 <= evictCount t + n)); [done|].
      destruct (evictOldest_in_range t n Hwf ltac:(lia)) as (t1 & Hok).
      rewrite Hok, decide_False in Hp by done. done.
    + intros [Hn|[Hn|[Hn Ho]]].
      * by rewrite Hbig.
      * by rewrite Hneg.
      * destruct (decide (n < 0)); [by rewrite Hneg|].
        by rewrite Hover by lia.
  - intros kind id. unfold idToIndex.
    destruct (decide (id <= evictCount t)); [done|].
    destruct kind; simpl; split; (done || lia).
  - intros kind id Hid. unfold idToIndex. by rewrite decide_True by done.
Qed.

Lemma fatal_violations_panic_witness :
  evictOldest 4
    (addEntries [pair "k1" "v1"; pair "k2" "v2"; pair "k1" "v3"] init)
  = Panic (PanicEvictOldest 4 3).
Proof.
  refine (proj1 (proj2 (fatal_violations_panic
    (addEntries [pair "k1" "v1"; pair "k2" "v2"; pair "k1" "v3"] init) _)) 4 _).
  - split; [split|]; reflexivity || (simpl; lia).
  - reflexivity.
Defined.

(** ** Bindings across an eviction *)

Section bindings_across_eviction.
Context {K : Type} `{Countable K} (key : HeaderField → K).

(** What the conditional clear amounts to: a binding survives exactly
    when it points past the evicted prefix. *)
Lemma indexes_after_evict ec l (m m' : gmap K Z) (n : nat) :
  0 <= ec →
  indexes key 0 ec l m →
  indexes key 0 (ec + Z.of_nat n) (drop n l) m' →
  ∀ x, mapGet m' x
       = if decide (ec + Z.of_nat n < mapGet m x) then mapGet m x else 0.
Proof.
  intros Hec Hm Hm' x. rewrite Hm', Hm, newest_drop.
  destruct (newest key x l) as [p|]; unfold idFrom.
  - rewrite (decide_True (P := (0 <= p)%nat)) by lia.
    destruct (decide (n <= p)%nat).
    + rewrite decide_True by lia. rewrite decide_True by lia. lia.
    + by rewrite decide_False by lia.
  - by rewrite decide_False by lia.
Qed.

End bindings_across_eviction.

(** C5, as stated, fails: with A = ("x","1") evicted and B = ("x","2")
    still in the table next to the newer ("x","3"), B's current index is 2,
    yet the search for the name "x" returns index 1, that of ("x","3"). *)
Lemma search_after_eviction_prefers_newest :
  evictOldest 1 (addEntries [pair "x" "1"; pair "x" "2"; pair "x" "3"] init)
    ≫= (λ t', Ok (ents t'))
  = Ok [pair "x" "2"; pair "x" "3"]
  ∧ evictOldest 1 (addEntries [pair "x" "1"; pair "x" "2"; pair "x" "3"] init)
      ≫= (λ t', search Dynamic t' (pair "x" "2"))
    = Ok (2, true)
  ∧ evictOldest 1 (addEntries [pair "x" "1"; pair "x" "2"; pair "x" "3"] init)
      ≫= (λ t', search Dynamic t' (pair "x" EmptyString))
    = Ok (1, false).
Proof. repeat split; reflexivity. Qed.

(** C5, amended. Let entry A be evicted by [evictOldest] while a later
    entry B of the same name stays in the table. Every binding of [byName]
    and [byNameValue] that points at a surviving entry is left as it was,
    and the others are cleared. A search for that name then returns a
    match, and its index is the current index of a surviving entry of that
    name, never a stale one derived from A: the newest surviving entry with
    the searched pair for an exact match, the newest surviving entry of the
    name for a name-only match. It is B's current index when B is that
    entry, or the only surviving entry of the name. *)
Theorem search_after_eviction_finds_survivor
    (t t' : headerFieldTable) (n : Z) (a b : nat) (A B q : HeaderField) :
  reachable t → evictCount t + len t < two64 →
  evictOldest n t = Ok t' →
  ents t !! a = Some A → Z.of_nat a < n →
  ents t !! b = Some B → n <= Z.of_nat b →
  Name A = Name q → Name B = Name q →
  (∀ x, mapGet (byName t') x
        = if decide (evictCount t + n < mapGet (byName t) x)
          then mapGet (byName t) x else 0)
  ∧ (∀ p, mapGet (byNameValue t') p
        = if decide (evictCount t + n < mapGet (byNameValue t) p)
          then mapGet (byNameValue t) p else 0)
  ∧ ents t' !! (b - Z.to_nat n)%nat = Some B
  ∧ ∃ (i : Z) (m : bool) (p : nat) (e : HeaderField),
      search Dynamic t' q = Ok (i, m)
      ∧ i = len t' - Z.of_nat p ∧ 1 <= i <= len t'
      ∧ ents t' !! p = Some e ∧ Name e = Name q
      ∧ (m = true → Value e = Value q)
      ∧ (m = true →
         ∀ j C, (p < j)%nat → ents t' !! j = Some C → keyPair C ≠ keyPair q)
      ∧ (m = false →
         (b - Z.to_nat n <= p)%nat
         ∧ ∀ j C, (p < j)%nat → ents t' !! j = Some C → Name C ≠ Name q)
      ∧ (m = false →
         (∀ j C, (b < j)%nat → ents t !! j = Some C → Name C ≠ Name q) →
         p = (b - Z.to_nat n)%nat ∧ e = B)
      ∧ ((∀ j C, n <= Z.of_nat j → j ≠ b → ents t !! j = Some C →
                 Name C ≠ Name q) →
         p = (b - Z.to_nat n)%nat ∧ e = B).
Proof.
  intros Hr Hb Hrun Ha Han Hbb Hnb HA HB.
  pose proof (reachable_tableInv t Hr Hb) as Hinv.
  destruct (tableInv_evictOldest n t t' Hinv Hrun) as (Hinv' & Hec' & Hents').
  destruct (evictOldest_Ok_inv n t t' Hrun) as (Hn & _).
  assert (Hecn : evictCount t' = evictCount t + Z.of_nat (Z.to_nat n)) by lia.
  assert (HB' : ents t' !! (b - Z.to_nat n)%nat = Some B).
  { rewrite Hents', lookup_drop. rewrite <- Hbb. f_equal. lia. }
  split; [|split; [|split; [done|]]].
  - intros x.
    replace (evictCount t + n) with (evictCount t + Z.of_nat (Z.to_nat n)) by lia.
    apply (indexes_after_evict keyName _ (ents t)).
    + by destruct Hinv.
    + by destruct Hinv.
    + rewrite <- Hecn, <- Hents'. by destruct Hinv'.
  - intros x.
    replace (evictCount t + n) with (evictCount t + Z.of_nat (Z.to_nat n)) by lia.
    apply (indexes_after_evict keyPair _ (ents t)).
    + by destruct Hinv.
    + by destruct Hinv.
    + rewrite <- Hecn, <- Hents'. by destruct Hinv'.
  - destruct (newest_ge keyName (Name q) (ents t') _ B HB' HB) as (p0 & Hp0 & Hle).
    (* any entry of [t'] is the entry of [t] that sat [n] places later *)
    assert (Hback : ∀ j C, ents t' !! j = Some C →
                           ents t !! (Z.to_nat n + j)%nat = Some C).
    { intros j C. by rewrite Hents', lookup_drop. }
    assert (Hidx : ∀ p, (p < length (ents t'))%nat →
                        1 <= len t' - Z.of_nat p <= len t').
    { intros p Hp. unfold len. lia. }
    rewrite (search_newest Dynamic t' q Hinv').
    destruct (if Sensitive q then None
              else newest keyPair (keyPair q) (ents t')) as [p1|] eqn:Hexact.
    + assert (Hp1 : newest keyPair (keyPair q) (ents t') = Some p1)
        by (destruct (Sensitive q); done).
      destruct (newest_lookup keyPair _ _ _ Hp1) as (e & He & Hkey).
      pose proof (newest_lt keyPair _ _ _ Hp1) as Hlt.
      injection Hkey as Hname Hvalue.
      exists (len t' - Z.of_nat p1), true, p1, e.
      repeat apply conj; try done; try (by apply Hidx).
      * intros _ j C Hj HC HCk.
        pose proof (newest_max keyPair _ _ _ _ _ Hp1 HC HCk). lia.
      * intros Honly.
        destruct (decide (Z.to_nat n + p1 = b)%nat) as [Heq|Hne].
        -- assert (p1 = (b - Z.to_nat n)%nat) as -> by lia.
           split; [done|]. congruence.
        -- destruct (Honly (Z.to_nat n + p1)%nat e); try done; [lia|].
           by apply Hback.
    + destruct (newest_lookup keyName _ _ _ Hp0) as (e & He & Hname).
      pose proof (newest_lt keyName _ _ _ Hp0) as Hlt.
      rewrite Hp0.
      assert (Hnewest : (∀ j C, (b < j)%nat → ents t !! j = Some C →
                                Name C ≠ Name q) →
                        p0 = (b - Z.to_nat n)%nat ∧ e = B).
      { intros Hlast.
        destruct (decide (p0 = (b - Z.to_nat n)%nat)) as [->|Hne];
          [split; [done|congruence]|].
        destruct (Hlast (Z.to_nat n + p0)%nat e); try done; [lia|].
        by apply Hback. }
      exists (len t' - Z.of_nat p0), false, p0, e.
      repeat apply conj; try done; try (by apply Hidx).
      * intros _. split; [done|]. intros j C Hj HC HCn.
        pose proof (newest_max keyName _ _ _ _ _ Hp0 HC HCn). lia.
      * intros Honly. apply Hnewest.
        intros j C Hj HC. apply (Honly j C); [lia|lia|done].
Qed.

Lemma search_after_eviction_finds_survivor_witness :
  ∃ (i : Z) (m : bool) (p : nat) (e : HeaderField),
    search Dynamic
      {| ents := [pair "x" "2"];
         evictCount := 1;
         byName := byName (addEntries [pair "x" "1"; pair "x" "2"] init);
         byNameValue :=
           <[mkPairNameValue "x" "1" := 0]>
             (byNameValue (addEntries [pair "x" "1"; pair "x" "2"] init)) |}
      (pair "x" EmptyString)
    = Ok (i, m)
    ∧ i = 1 - Z.of_nat p ∧ 1 <= i <= 1
    ∧ [pair "x" "2"] !! p = Some e ∧ Name e = "x".
Proof.
  destruct (search_after_eviction_finds_survivor
              (addEntries [pair "x" "1"; pair "x" "2"] init)
              {| ents := [pair "x" "2"];
                 evictCount := 1;
                 byName := byName (addEntries [pair "x" "1"; pair "x" "2"] init);
                 byNameValue :=
                   <[mkPairNameValue "x" "1" := 0]>
                     (byNameValue (addEntries [pair "x" "1"; pair "x" "2"] init)) |}
              1 0%nat 1%nat (pair "x" "1") (pair "x" "2") (pair "x" EmptyString))
    as (_ & _ & _ & i & m & p & e & Hs & Hi & Hr & He & Hn & _).
  - apply reachable_addEntries. constructor.
  - reflexivity.
  - reflexivity.
  - reflexivity.
  - lia.
  - reflexivity.
  - simpl. lia.
  - reflexivity.
  - reflexivity.
  - exists i, m, p, e. repeat split; try done; apply Hr.
Defined.

(** ** Unique ids along a run *)

Section run_facts.

Lemma mapGet_lookup `{Countable K} (m : gmap K Z) k v :
  m !! k = Some v → mapGet m k = v.
Proof. intros Hk. unfold mapGet. by rewrite Hk. Qed.

(** Inserting alone never fails. *)
Lemma run_adds fs t :
  ∃ ids, run (OpAdd <$> fs) t = Ok (addEntries fs t, ids).
Proof.
  revert t. induction fs as [|f fs IH]; intros t.
  - by exists [].
  - rewrite fmap_cons. destruct (IH (addEntry f t)) as (ids & Hids).
    cbn [run]. rewrite Hids. by eexists.
Qed.

(** The ids handed out along a run are consecutive, starting right after
    the number of entries inserted before it. *)
Lemma run_ids ops t r :
  tableInv t → evictCount t + len t + Z.of_nat (adds ops) < two64 →
  run ops t = Ok r →
  r.2 = seqZ (evictCount t + len t + 1) (Z.of_nat (adds ops))
  ∧ evictCount r.1 + len r.1 = evictCount t + len t + Z.of_nat (adds ops).
Proof.
  revert t r. induction ops as [|[f|n] ops IH]; intros t r Hinv Hb Hrun.
  - injection Hrun as <-. simpl. split; [done|lia].
  - simpl in Hrun, Hb.
    destruct (run ops (addEntry f t)) as [r'|] eqn:Hr'; [|done].
    simpl in Hrun. injection Hrun as <-. simpl.
    destruct (IH (addEntry f t) r') as [Hids Hsum]; [| |done|].
    + apply tableInv_addEntry; [done|lia].
    + rewrite len_addEntry. simpl. lia.
    + rewrite len_addEntry in Hids, Hsum. simpl in Hids, Hsum.
      split; [|lia].
      rewrite Hids, newId_exact by (destruct Hinv; lia || done).
      rewrite (seqZ_cons (evictCount t + len t + 1)) by lia.
      f_equal. f_equal; lia.
  - simpl in Hrun, Hb.
    destruct (evictOldest n t) as [t1|] eqn:Ht1; [|done].
    simpl in Hrun.
    destruct (tableInv_evictOldest n t t1 Hinv Ht1) as (Hinv1 & Hec1 & He1).
    destruct (evictOldest_Ok_inv n t t1 Ht1) as (Hn & _).
    assert (Hlen1 : len t1 = len t - n).
    { unfold len in *. rewrite He1, length_drop. lia. }
    destruct (IH t1 r Hinv1) as [Hids Hsum]; [lia|done|].
    rewrite Hids, Hsum, Hec1, Hlen1. cbn [adds]. split; [f_equal|]; lia.
Qed.

End run_facts.

(** C6. [addEntry] assigns the id [len(ents) + evictCount + 1], computed
    before the append, and records it under the entry's name and pair.
    Along any run of insertions and evictions the ids assigned are
    consecutive: the [j]-th insertion of the run (counting from 0) gets
    [evictCount + len(ents) + 1 + j] of the starting table, so the ids are
    strictly increasing without gaps or repeats, and from an empty table
    they are 1, 2, 3, ... whatever was evicted in between. Inserting any
    number of entries never fails. *)
Theorem addEntry_ids_are_sequence_numbers
    (t : headerFieldTable) (ops : list op) :
  reachable t → evictCount t + len t + Z.of_nat (adds ops) < two64 →
  (∀ f, mapGet (byName (addEntry f t)) (Name f) = newId t
        ∧ mapGet (byNameValue (addEntry f t)) (keyPair f) = newId t)
  ∧ ((0 < adds ops)%nat → newId t = len t + evictCount t + 1)
  ∧ (∀ fs, ∃ ids, run (OpAdd <$> fs) t = Ok (addEntries fs t, ids))
  ∧ (∀ r, run ops t = Ok r →
       length r.2 = adds ops
       ∧ (∀ j id, r.2 !! j = Some id →
                  id = evictCount t + len t + 1 + Z.of_nat j)
       ∧ evictCount r.1 + len r.1 = evictCount t + len t + Z.of_nat (adds ops)).
Proof.
  intros Hr Hb.
  assert (Hinv : tableInv t).
  { apply reachable_tableInv; [done|lia]. }
  repeat apply conj.
  - intros f. split; apply mapGet_insert_eq.
  - intros Hpos. rewrite newId_exact by (destruct Hinv; lia || done). lia.
  - intros fs. apply run_adds.
  - intros r Hrun. destruct (run_ids ops t r Hinv Hb Hrun) as [Hids Hsum].
    rewrite Hids. repeat apply conj.
    + rewrite length_seqZ. lia.
    + intros j id Hj. apply lookup_seqZ in Hj. lia.
    + done.
Qed.

Lemma addEntry_ids_are_sequence_numbers_witness :
  ∃ r, run [OpAdd (pair "k1" "v1"); OpAdd (pair "k2" "v2"); OpEvict 1;
            OpAdd (pair "k1" "v3")] init = Ok r
       ∧ length r.2 = 3%nat
       ∧ (∀ j id, r.2 !! j = Some id → id = 0 + 0 + 1 + Z.of_nat j)
       ∧ evictCount r.1 + len r.1 = 0 + 0 + Z.of_nat 3.
Proof.
  eexists. split; [reflexivity|].
  refine (proj2 (proj2 (proj2 (addEntry_ids_are_sequence_numbers init
    [OpAdd (pair "k1" "v1"); OpAdd (pair "k2" "v2"); OpEvict 1;
     OpAdd (pair "k1" "v3")] _ _))) _ _).
  - constructor.
  - reflexivity.
  - reflexivity.
Defined.

(** C9. In every table reachable from an initialised empty table by
    [addEntry] and returning [evictOldest] calls, as long as fewer than
    [2^64] entries have been inserted in all: every nonzero id stored in
    [byName] or [byNameValue] lies in [(evictCount, evictCount + len(ents)]]
    and names an entry of [ents] with that key; [search] never panics, and
    the index of a match lies in [[1, len(ents)]]. *)
Theorem live_id_invariant (t : headerFieldTable) :
  reachable t → evictCount t + len t < two64 →
  (∀ x id, byName t !! x = Some id → id ≠ 0 →
     evictCount t < id <= evictCount t + len t
     ∧ ∃ f, ents t !! Z.to_nat (id - evictCount t - 1) = Some f ∧ Name f = x)
  ∧ (∀ p id, byNameValue t !! p = Some id → id ≠ 0 →
     evictCount t < id <= evictCount t + len t
     ∧ ∃ f, ents t !! Z.to_nat (id - evictCount t - 1) = Some f
            ∧ Name f = name p ∧ Value f = value p)
  ∧ (∀ kind q, ∃ i m,
       search kind t q = Ok (i, m)
       ∧ ((i = 0 ∧ m = false) ∨ 1 <= i <= len t)).
Proof.
  intros Hr Hb. pose proof (reachable_tableInv t Hr Hb) as Hinv.
  repeat apply conj.
  - intros x id Hx Hnz. apply mapGet_lookup in Hx.
    destruct (indexes_live keyName (evictCount t) (ents t) (byName t) x)
      as (p & f & Hp & Hf & Hk & Hid).
    { by destruct Hinv. } { by rewrite Hx. }
    pose proof (newest_lt keyName _ _ _ Hp) as Hlt.
    rewrite Hx in Hid. subst id. unfold len. split; [lia|].
    exists f. split; [|done]. rewrite <- Hf. f_equal. lia.
  - intros x id Hx Hnz. apply mapGet_lookup in Hx.
    destruct (indexes_live keyPair (evictCount t) (ents t) (byNameValue t) x)
      as (p & f & Hp & Hf & Hk & Hid).
    { by destruct Hinv. } { by rewrite Hx. }
    pose proof (newest_lt keyPair _ _ _ Hp) as Hlt.
    rewrite Hx in Hid. subst id. unfold len. split; [lia|].
    exists f. subst x. split; [|done]. rewrite <- Hf. f_equal. lia.
  - intros kind q. rewrite (search_newest kind t q Hinv).
    assert (Hidx : ∀ p, (p < length (ents t))%nat →
                        1 <= indexAt kind t p <= len t).
    { intros p Hp. unfold indexAt, len. destruct kind; lia. }
    destruct (if Sensitive q then None
              else newest keyPair (keyPair q) (ents t)) as [p1|] eqn:Hexact.
    + assert (Hp1 : newest keyPair (keyPair q) (ents t) = Some p1)
        by (destruct (Sensitive q); done).
      eexists _, _. split; [done|]. right.
      apply Hidx. by eapply newest_lt.
    + destruct (newest keyName (Name q) (ents t)) as [p0|] eqn:Hp0.
      * eexists _, _. split; [done|]. right.
        apply Hidx. by eapply newest_lt.
      * eexists _, _. split; [done|]. by left.
Qed.

Lemma live_id_invariant_witness :
  ∃ i m,
    search Dynamic (addEntries [pair "k1" "v1"; pair "k2" "v2"] init)
           (pair "k1" "v9") = Ok (i, m)
    ∧ ((i = 0 ∧ m = false)
       ∨ 1 <= i <= len (addEntries [pair "k1" "v1"; pair "k2" "v2"] init)).
Proof.
  refine (proj2 (proj2 (live_id_invariant
    (addEntries [pair "k1" "v1"; pair "k2" "v2"] init) _ _)) Dynamic _).
  - apply reachable_addEntries. constructor.
  - reflexivity.
Defined.

(** * Further properties of the table *)

(** ** What the two maps hold *)

Section index_contents.
Context {K : Type} `{Countable K} (key : HeaderField → K).

Lemma indexes_zero_iff ec l (m : gmap K Z) x :
  0 <= ec → indexes key 0 ec l m →
  mapGet m x = 0 ↔ ∀ p f, l !! p = Some f → key f ≠ x.
Proof.
  intros Hec Hm. rewrite Hm. split.
  - intros Hz p f Hp.
    destruct (newest key x l) as [p0|] eqn:Hn.
    + unfold idFrom in Hz. rewrite decide_True in Hz by lia. lia.
    + by eapply newest_None.
  - intros Hnone. destruct (newest key x l) as [p0|] eqn:Hn; [|done].
    destruct (newest_lookup key x l p0 Hn) as (f & Hf & Hk).
    by destruct (Hnone p0 f Hf).
Qed.

Lemma indexes_points_at_newest ec l (m : gmap K Z) x :
  indexes key 0 ec l m → mapGet m x ≠ 0 →
  ∃ p f, mapGet m x = ec + Z.of_nat p + 1
         ∧ l !! p = Some f ∧ key f = x
         ∧ ∀ j g, (p < j)%nat → l !! j = Some g → key g ≠ x.
Proof.
  intros Hm Hnz.
  destruct (indexes_live key ec l m x Hm Hnz) as (p & f & Hp & Hf & Hk & Hid).
  exists p, f. repeat apply conj; try done.
  intros j g Hj Hg Hgx.
  pose proof (newest_max key x l p j g Hp Hg Hgx). lia.
Qed.

End index_contents.

(** In every reachable table that has seen fewer than [2^64] insertions,
    [byName] reads zero for a name exactly when no entry has it and
    otherwise holds the unique id of the newest entry with that name;
    [byNameValue] does the same for name/value pairs. *)
Theorem maps_hold_newest_ids (t : headerFieldTable) :
  reachable t → evictCount t + len t < two64 →
  (∀ x, (mapGet (byName t) x = 0
         ↔ ∀ p f, ents t !! p = Some f → Name f ≠ x)
        ∧ (mapGet (byName t) x ≠ 0 →
           ∃ p f, mapGet (byName t) x = evictCount t + Z.of_nat p + 1
                  ∧ ents t !! p = Some f ∧ Name f = x
                  ∧ ∀ j g, (p < j)%nat → ents t !! j = Some g → Name g ≠ x))
  ∧ (∀ x, (mapGet (byNameValue t) x = 0
           ↔ ∀ p f, ents t !! p = Some f → keyPair f ≠ x)
          ∧ (mapGet (byNameValue t) x ≠ 0 →
             ∃ p f, mapGet (byNameValue t) x = evictCount t + Z.of_nat p + 1
                    ∧ ents t !! p = Some f ∧ keyPair f = x
                    ∧ ∀ j g, (p < j)%nat → ents t !! j = Some g →
                             keyPair g ≠ x)).
Proof.
  intros Hr Hb. destruct (reachable_tableInv t Hr Hb) as [Hec _ Hn Hp].
  split; intros x; split.
  - by apply (indexes_zero_iff keyName (evictCount t)).
  - by apply (indexes_points_at_newest keyName (evictCount t)).
  - by apply (indexes_zero_iff keyPair (evictCount t)).
  - by apply (indexes_points_at_newest keyPair (evictCount t)).
Qed.

Lemma maps_hold_newest_ids_witness :
  mapGet (byName (addEntries [pair "k1" "v1"; pair "k2" "v2"; pair "k1" "v3"] init))
         "k9" = 0
  ↔ ∀ p f, [pair "k1" "v1"; pair "k2" "v2"; pair "k1" "v3"] !! p = Some f →
           Name f ≠ "k9".
Proof.
  refine (proj1 (proj1 (maps_hold_newest_ids
    (addEntries [pair "k1" "v1"; pair "k2" "v2"; pair "k1" "v3"] init) _ _) "k9")).
  - apply reachable_addEntries. constructor.
  - reflexivity.
Defined.

(** ** What a search result means *)

Section search_meaning.
Variable t : headerFieldTable.
Hypothesis Hinv : tableInv t.

Lemma indexAt_range kind p :
  (p < length (ents t))%nat → 1 <= indexAt kind t p <= len t.
Proof. intros Hp. unfold indexAt, len. destruct kind; lia. Qed.

(** A pair found in the table is also a name found in the table. *)
Lemma newest_pair_name q p :
  newest keyPair (keyPair q) (ents t) = Some p →
  ∃ p0, newest keyName (Name q) (ents t) = Some p0.
Proof.
  intros (f & Hf & Hk)%newest_lookup. injection Hk as Hname _.
  destruct (newest_ge keyName (Name q) (ents t) p f Hf Hname) as (p0 & Hp0 & _).
  by exists p0.
Qed.

Lemma search_none_iff kind q :
  search kind t q = Ok (0, false)
  ↔ ∀ p f, ents t !! p = Some f → Name f ≠ Name q.
Proof.
  rewrite (search_newest kind t q Hinv). split.
  - intros Hs p f Hp.
    destruct (if Sensitive q then None
              else newest keyPair (keyPair q) (ents t)); [done|].
    destruct (newest keyName (Name q) (ents t)) as [p0|] eqn:Hn.
    + pose proof (indexAt_range kind p0 (newest_lt keyName _ _ _ Hn)).
      injection Hs as Hs. lia.
    + by apply (newest_None keyName (Name q) (ents t) p f Hn Hp).
  - intros Hnone.
    assert (Hn : newest keyName (Name q) (ents t) = None).
    { destruct (newest keyName (Name q) (ents t)) as [p0|] eqn:Hn; [|done].
      destruct (newest_lookup keyName _ _ _ Hn) as (f & Hf & Hk).
      by destruct (Hnone p0 f Hf). }
    destruct (if Sensitive q then None
              else newest keyPair (keyPair q) (ents t)) as [p1|] eqn:He.
    + assert (Hp1 : newest keyPair (keyPair q) (ents t) = Some p1)
        by (destruct (Sensitive q); done).
      destruct (newest_pair_name q p1 Hp1) as (p0 & Hp0). congruence.
    + by rewrite Hn.
Qed.

Lemma search_exact_iff kind q :
  (∃ i, search kind t q = Ok (i, true))
  ↔ Sensitive q = false
    ∧ ∃ p f, ents t !! p = Some f ∧ Name f = Name q ∧ Value f = Value q.
Proof.
  rewrite (search_newest kind t q Hinv). split.
  - intros [i Hs]. destruct (Sensitive q) eqn:Hsens.
    + by destruct (newest keyName (Name q) (ents t)).
    + split; [done|].
      destruct (newest keyPair (keyPair q) (ents t)) as [p1|] eqn:Hp1.
      * destruct (newest_lookup keyPair _ _ _ Hp1) as (f & Hf & Hk).
        injection Hk as Hname Hvalue. by exists p1, f.
      * by destruct (newest keyName (Name q) (ents t)).
  - intros [-> (p & f & Hf & Hname & Hvalue)].
    assert (Hk : keyPair f = keyPair q) by (unfold keyPair; congruence).
    destruct (newest_ge keyPair (keyPair q) (ents t) p f Hf Hk) as (p1 & -> & _).
    by eexists.
Qed.

Lemma search_designates kind q i m :
  search kind t q = Ok (i, m) → i ≠ 0 →
  ∃ p f, i = indexAt kind t p ∧ ents t !! p = Some f
         ∧ Name f = Name q ∧ (m = true → Value f = Value q)
         ∧ ∀ j g, (p < j)%nat → ents t !! j = Some g →
                  Name g = Name q → m = true ∧ Value g ≠ Value q.
Proof.
  rewrite (search_newest kind t q Hinv). intros Hs Hnz.
  destruct (if Sensitive q then None
            else newest keyPair (keyPair q) (ents t)) as [p1|] eqn:He.
  - assert (Hp1 : newest keyPair (keyPair q) (ents t) = Some p1)
      by (destruct (Sensitive q); done).
    injection Hs as <- <-.
    destruct (newest_lookup keyPair _ _ _ Hp1) as (f & Hf & Hk).
    injection Hk as Hname Hvalue.
    exists p1, f. repeat apply conj; try done.
    intros j g Hj Hg Hgn. split; [done|]. intros Hv.
    assert (Hk : keyPair g = keyPair q) by (unfold keyPair; congruence).
    pose proof (newest_max keyPair _ _ _ _ _ Hp1 Hg Hk). lia.
  - destruct (newest keyName (Name q) (ents t)) as [p0|] eqn:Hp0.
    + injection Hs as <- <-.
      destruct (newest_lookup keyName _ _ _ Hp0) as (f & Hf & Hk).
      exists p0, f. repeat apply conj; try done.
      intros j g Hj Hg Hgn.
      pose proof (newest_max keyName _ _ _ _ _ Hp0 Hg Hgn). lia.
    + injection Hs as <- <-. done.
Qed.

End search_meaning.

(** A result with index 0 is the no-match result. *)
Lemma search_zero_index kind t q i m :
  tableInv t → search kind t q = Ok (i, m) → i = 0 → m = false.
Proof.
  intros Hinv Hs Hz. rewrite (search_newest kind t q Hinv) in Hs.
  destruct (if Sensitive q then None
            else newest keyPair (keyPair q) (ents t)) as [p1|] eqn:He.
  - assert (Hp1 : newest keyPair (keyPair q) (ents t) = Some p1)
      by (destruct (Sensitive q); done).
    pose proof (indexAt_range t kind p1 (newest_lt keyPair _ _ _ Hp1)).
    injection Hs as Hi _. lia.
  - destruct (newest keyName (Name q) (ents t)) as [p0|] eqn:Hp0.
    + by injection Hs as _ <-.
    + by injection Hs as _ <-.
Qed.

(** [search] answers [(0, false)] exactly when no entry of the table has
    the searched name, and index 0 is never the index of a match: a result
    with index 0 is not exact and means that no entry has the name, so
    whenever some entry has the searched name the index returned is not
    0. *)
Theorem search_no_match_iff_name_absent
    (kind : tableKind) (t : headerFieldTable) (q : HeaderField) :
  reachable t → evictCount t + len t < two64 →
  (search kind t q = Ok (0, false)
   ↔ ∀ p f, ents t !! p = Some f → Name f ≠ Name q)
  ∧ (∀ i m, search kind t q = Ok (i, m) → i = 0 →
            m = false ∧ ∀ p f, ents t !! p = Some f → Name f ≠ Name q)
  ∧ (∀ i m p f, search kind t q = Ok (i, m) →
                ents t !! p = Some f → Name f = Name q → 1 <= i <= len t).
Proof.
  intros Hr Hb. pose proof (reachable_tableInv t Hr Hb) as Hinv.
  assert (Hzero : ∀ i m, search kind t q = Ok (i, m) → i = 0 →
            m = false ∧ ∀ p f, ents t !! p = Some f → Name f ≠ Name q).
  { intros i m Hs ->.
    pose proof (search_zero_index kind t q 0 m Hinv Hs eq_refl) as ->.
    split; [done|]. by apply (search_none_iff t Hinv kind q). }
  repeat apply conj.
  - by apply search_none_iff.
  - by apply search_none_iff.
  - exact Hzero.
  - intros i m p f Hs Hf Hname.
    destruct (decide (i = 0)) as [->|Hnz].
    + destruct (Hzero 0 m Hs eq_refl) as [_ Hnone]. by destruct (Hnone p f Hf).
    + destruct (search_designates t Hinv kind q i m Hs Hnz)
        as (p0 & f0 & -> & Hf0 & _).
      apply indexAt_range. by eapply lookup_lt_Some.
Qed.

Lemma search_no_match_iff_name_absent_witness :
  search Dynamic (addEntries [pair "k1" "v1"; pair "k2" "v2"] init)
         (pair "k3" "v1") = Ok (0, false)
  ↔ ∀ p f, [pair "k1" "v1"; pair "k2" "v2"] !! p = Some f → Name f ≠ "k3".
Proof.
  refine (proj1 (search_no_match_iff_name_absent Dynamic
    (addEntries [pair "k1" "v1"; pair "k2" "v2"] init) (pair "k3" "v1") _ _)).
  - apply reachable_addEntries. constructor.
  - reflexivity.
Defined.

(** [search] reports an exact match exactly when the searched field is not
    sensitive and some entry of the table has its name and its value. *)
Theorem search_exact_iff_pair_present
    (kind : tableKind) (t : headerFieldTable) (q : HeaderField) :
  reachable t → evictCount t + len t < two64 →
  (∃ i, search kind t q = Ok (i, true))
  ↔ Sensitive q = false
    ∧ ∃ p f, ents t !! p = Some f ∧ Name f = Name q ∧ Value f = Value q.
Proof.
  intros Hr Hb. apply search_exact_iff. by apply reachable_tableInv.
Qed.

Lemma search_exact_iff_pair_present_witness :
  (∃ i, search Dynamic (addEntries [pair "k1" "v1"; pair "k2" "v2"] init)
               (pair "k2" "v2") = Ok (i, true))
  ↔ Sensitive (pair "k2" "v2") = false
    ∧ ∃ p f, [pair "k1" "v1"; pair "k2" "v2"] !! p = Some f
             ∧ Name f = "k2" ∧ Value f = "v2".
Proof.
  refine (search_exact_iff_pair_present Dynamic
    (addEntries [pair "k1" "v1"; pair "k2" "v2"] init) (pair "k2" "v2") _ _).
  - apply reachable_addEntries. constructor.
  - reflexivity.
Defined.

(** The index of a match designates an entry of the table: [ents[len - i]]
    in a dynamic table, [ents[i - 1]] in the static one. That entry has the
    searched name, and the searched value when the match is exact, and no
    newer entry would have matched in the same way. *)
Theorem search_index_designates_entry
    (t : headerFieldTable) (q : HeaderField) (i : Z) (m : bool) :
  reachable t → evictCount t + len t < two64 → i ≠ 0 →
  (search Dynamic t q = Ok (i, m) →
   1 <= i <= len t
   ∧ ∃ f, ents t !! Z.to_nat (len t - i) = Some f
          ∧ Name f = Name q ∧ (m = true → Value f = Value q)
          ∧ ∀ j g, (Z.to_nat (len t - i) < j)%nat → ents t !! j = Some g →
                   Name g = Name q → m = true ∧ Value g ≠ Value q)
  ∧ (search Static t q = Ok (i, m) →
     1 <= i <= len t
     ∧ ∃ f, ents t !! Z.to_nat (i - 1) = Some f
            ∧ Name f = Name q ∧ (m = true → Value f = Value q)
            ∧ ∀ j g, (Z.to_nat (i - 1) < j)%nat → ents t !! j = Some g →
                     Name g = Name q → m = true ∧ Value g ≠ Value q).
Proof.
  intros Hr Hb Hnz. pose proof (reachable_tableInv t Hr Hb) as Hinv.
  split; intros Hs.
  - destruct (search_designates t Hinv Dynamic q i m Hs Hnz)
      as (p & f & -> & Hf & Hname & Hvalue & Hnew).
    pose proof (lookup_lt_Some _ _ _ Hf) as Hlt.
    split; [by apply indexAt_range|].
    unfold indexAt.
    replace (Z.to_nat (len t - (len t - Z.of_nat p))) with p by lia.
    by exists f.
  - destruct (search_designates t Hinv Static q i m Hs Hnz)
      as (p & f & -> & Hf & Hname & Hvalue & Hnew).
    pose proof (lookup_lt_Some _ _ _ Hf) as Hlt.
    split; [by apply indexAt_range|].
    unfold indexAt.
    replace (Z.to_nat (Z.of_nat p + 1 - 1)) with p by lia.
    by exists f.
Qed.

Lemma search_index_designates_entry_witness :
  1 <= 2 <= len (addEntries [pair "k1" "v1"; pair "k2" "v2"; pair "k3" "v3"] init)
  ∧ ∃ f, [pair "k1" "v1"; pair "k2" "v2"; pair "k3" "v3"]
           !! Z.to_nat (len (addEntries [pair "k1" "v1"; pair "k2" "v2";
                                         pair "k3" "v3"] init) - 2) = Some f
         ∧ Name f = "k2".
Proof.
  destruct (proj1 (search_index_designates_entry
    (addEntries [pair "k1" "v1"; pair "k2" "v2"; pair "k3" "v3"] init)
    (pair "k2" "zz") 2 false
    (reachable_addEntries _ _ reachable_init) eq_refl ltac:(lia)) eq_refl)
    as (Hrange & f & Hf & Hname & _).
  split; [done|]. by exists f.
Defined.

(** ** Edge cases of evictOldest *)

(** Evicting nothing leaves the table as it is. *)
Theorem evictOldest_zero (t : headerFieldTable) :
  is_u64 (evictCount t) → evictOldest 0 t = Ok t.
Proof.
  intros Hu. pose proof (len_nonneg t).
  destruct (evictOldest_unfold 0 t ltac:(lia)) as (t1 & Hloop & _ & _ & ->).
  simpl in Hloop. injection Hloop as <-.
  change (u64 0) with 0. rewrite add64_small by (unfold is_u64 in Hu; lia).
  rewrite decide_False by lia. rewrite Z.add_0_r, drop_0.
  by destruct t.
Qed.

Lemma evictOldest_zero_witness :
  evictOldest 0 (addEntries [pair "k1" "v1"; pair "k2" "v2"] init)
  = Ok (addEntries [pair "k1" "v1"; pair "k2" "v2"] init).
Proof.
  apply evictOldest_zero. split; [simpl; lia|reflexivity].
Defined.

(** Evicting every entry empties the table, advances [evictCount] by the
    number of entries, and leaves nothing to be found: every later search
    answers [(0, false)]. *)
Theorem evictOldest_all_clears (t : headerFieldTable) :
  reachable t → evictCount t + len t < two64 →
  ∃ t', evictOldest (len t) t = Ok t'
        ∧ ents t' = [] ∧ evictCount t' = evictCount t + len t
        ∧ (∀ x, mapGet (byName t') x = 0)
        ∧ (∀ x, mapGet (byNameValue t') x = 0)
        ∧ ∀ kind q, search kind t' q = Ok (0, false).
Proof.
  intros Hr Hb. pose proof (reachable_tableInv t Hr Hb) as Hinv.
  pose proof (len_nonneg t) as Hlen.
  destruct (evictOldest_unfold (len t) t ltac:(lia)) as (t1 & _ & _ & _ & Heq).
  destruct Hinv as [Hec Hbound Hn Hp].
  rewrite (u64_small (len t)) in Heq by lia.
  rewrite add64_small in Heq by lia.
  rewrite decide_False in Heq by lia.
  eexists. split; [exact Heq|].
  destruct (tableInv_evictOldest (len t) t _ (mkTableInv t Hec Hbound Hn Hp) Heq)
    as (Hinv' & _ & _).
  assert (He : drop (Z.to_nat (len t)) (ents t) = []).
  { apply drop_ge. unfold len. lia. }
  simpl. repeat apply conj; try done.
  - intros x. apply (indexes_zero_iff keyName (evictCount t + len t) []).
    + lia.
    + destruct Hinv' as [_ _ Hn' _]. simpl in Hn'. by rewrite He in Hn'.
    + by intros p f Hf.
  - intros x. apply (indexes_zero_iff keyPair (evictCount t + len t) []).
    + lia.
    + destruct Hinv' as [_ _ _ Hp']. simpl in Hp'. by rewrite He in Hp'.
    + by intros p f Hf.
  - intros kind q. apply (search_none_iff _ Hinv').
    simpl. rewrite He. by intros p f Hf.
Qed.

Lemma evictOldest_all_clears_witness :
  ∃ t', evictOldest 2 (addEntries [pair "k1" "v1"; pair "k2" "v2"] init) = Ok t'
        ∧ ents t' = [] ∧ evictCount t' = 0 + 2.
Proof.
  destruct (evictOldest_all_clears
    (addEntries [pair "k1" "v1"; pair "k2" "v2"] init)
    (reachable_addEntries _ _ reachable_init) eq_refl)
    as (t' & Hrun & He & Hc & _).
  by exists t'.
Defined.

(** ** Keys are never removed from the maps *)

Section keys_kept.

Lemma evictEntry_dom k f t :
  dom (byName t) ⊆ dom (byName (evictEntry k f t))
  ∧ dom (byNameValue t) ⊆ dom (byNameValue (evictEntry k f t)).
Proof.
  unfold evictEntry. simpl. split.
  - destruct (decide _); [|done]. rewrite dom_insert_L. set_solver.
  - destruct (decide _); [|done]. rewrite dom_insert_L. set_solver.
Qed.

Lemma evictLoop_dom cnt k t t1 :
  evictLoop cnt k t = Ok t1 →
  dom (byName t) ⊆ dom (byName t1)
  ∧ dom (byNameValue t) ⊆ dom (byNameValue t1).
Proof.
  revert k t. induction cnt as [|cnt IH]; intros k t Hrun; simpl in Hrun.
  - by injection Hrun as <-.
  - destruct (ents t !! Z.to_nat k) as [f|]; [|done].
    destruct (IH _ _ Hrun) as [Hn Hp].
    destruct (evictEntry_dom k f t) as [Hn0 Hp0].
    split; by etrans.
Qed.

End keys_kept.

(** [evictOldest] clears a binding by storing zero, never by deleting the
    key: every key present in [byName] or [byNameValue] before the call is
    still present after it. [addEntry] adds the keys of the new entry. *)
Theorem evictOldest_keeps_keys (n : Z) (t t' : headerFieldTable) :
  evictOldest n t = Ok t' →
  dom (byName t) ⊆ dom (byName t')
  ∧ dom (byNameValue t) ⊆ dom (byNameValue t')
  ∧ (∀ f, dom (byName (addEntry f t)) = {[Name f]} ∪ dom (byName t)
          ∧ dom (byNameValue (addEntry f t))
            = {[keyPair f]} ∪ dom (byNameValue t)).
Proof.
  intros Hrun.
  destruct (evictOldest_Ok_inv n t t' Hrun) as (Hn & _).
  destruct (evictOldest_unfold n t Hn) as (t1 & Hloop & _ & _ & Heq).
  rewrite Heq in Hrun.
  destruct (decide (add64 (evictCount t) (u64 n) < evictCount t)); [done|].
  injection Hrun as <-. simpl.
  destruct (evictLoop_dom _ _ _ _ Hloop) as [Hdn Hdp].
  repeat apply conj; try done.
  intros f. split; apply dom_insert_L.
Qed.

Lemma evictOldest_keeps_keys_witness :
  ∃ t', evictOldest 1 (addEntries [pair "k1" "v1"; pair "k2" "v2"] init) = Ok t'
        ∧ dom (byName (addEntries [pair "k1" "v1"; pair "k2" "v2"] init))
          ⊆ dom (byName t')
        ∧ byName t' !! "k1" = Some 0.
Proof.
  eexists. split; [reflexivity|]. split; [|reflexivity].
  refine (proj1 (evictOldest_keeps_keys 1
    (addEntries [pair "k1" "v1"; pair "k2" "v2"] init) _ _)).
  reflexivity.
Defined.

(** ** How insertion and eviction move the indices *)

(** Inserting an entry moves every dynamic index up by one and leaves the
    static indices alone: for a searched name other than the inserted
    one, a match at [i] becomes a match of the same kind at [i + 1] in a
    dynamic table, no match stays no match, and the search of a static
    table is unchanged. *)
Theorem addEntry_shifts_dynamic_indices
    (t : headerFieldTable) (f q : HeaderField) :
  reachable t → evictCount t + len t + 1 < two64 → Name q ≠ Name f →
  search Static (addEntry f t) q = search Static t q
  ∧ ∀ i m, search Dynamic t q = Ok (i, m) →
           search Dynamic (addEntry f t) q
           = Ok (if decide (i = 0) then 0 else i + 1, m).
Proof.
  intros Hr Hb Hne.
  assert (Hinv : tableInv t) by (apply reachable_tableInv; [done|lia]).
  pose proof (tableInv_addEntry f t Hinv Hb) as Hinv'.
  assert (Hkp : keyPair f ≠ keyPair q) by (unfold keyPair; congruence).
  assert (Hkn : keyName f ≠ Name q) by (unfold keyName; congruence).
  assert (Hents : ents (addEntry f t) = ents t ++ [f]) by done.
  rewrite !(search_newest _ (addEntry f t) q Hinv').
  rewrite !(search_newest _ t q Hinv).
  rewrite Hents, !newest_snoc.
  rewrite !(decide_False (P := keyPair f = keyPair q)) by done.
  rewrite !(decide_False (P := keyName f = Name q)) by done.
  split; [done|]. intros i m.
  destruct (if Sensitive q then None
            else newest keyPair (keyPair q) (ents t)) as [p1|] eqn:He.
  - assert (Hp1 : newest keyPair (keyPair q) (ents t) = Some p1)
      by (destruct (Sensitive q); done).
    pose proof (newest_lt keyPair _ _ _ Hp1).
    intros [= <- <-]. unfold indexAt. rewrite len_addEntry.
    rewrite decide_False by (unfold len; lia). do 2 f_equal. lia.
  - destruct (newest keyName (Name q) (ents t)) as [p0|] eqn:Hp0.
    + pose proof (newest_lt keyName _ _ _ Hp0).
      intros [= <- <-]. unfold indexAt. rewrite len_addEntry.
      rewrite decide_False by (unfold len; lia). do 2 f_equal. lia.
    + by intros [= <- <-].
Qed.

Lemma addEntry_shifts_dynamic_indices_witness :
  search Dynamic
    (addEntry (pair "k3" "v3") (addEntries [pair "k1" "v1"; pair "k2" "v2"] init))
    (pair "k1" "v1")
  = Ok (if decide (2 = 0) then 0 else 2 + 1, true).
Proof.
  refine (proj2 (addEntry_shifts_dynamic_indices
    (addEntries [pair "k1" "v1"; pair "k2" "v2"] init)
    (pair "k3" "v3") (pair "k1" "v1") _ _ _) 2 true _).
  - apply reachable_addEntries. constructor.
  - reflexivity.
  - discriminate.
  - reflexivity.
Defined.

(** The newest entry takes over its name: right after [addEntry f], a
    search for [f]'s name that cannot be exact (the searched field is
    sensitive, or no entry has the searched pair) is a name-only match at
    dynamic index 1. *)
Theorem addEntry_takes_over_name
    (t : headerFieldTable) (f q : HeaderField) :
  reachable t → evictCount t + len t + 1 < two64 → Name q = Name f →
  (Sensitive q = true
   ∨ (Value q ≠ Value f
      ∧ ∀ p g, ents t !! p = Some g → keyPair g ≠ keyPair q)) →
  search Dynamic (addEntry f t) q = Ok (1, false).
Proof.
  intros Hr Hb Hname Hnot.
  assert (Hinv : tableInv t) by (apply reachable_tableInv; [done|lia]).
  pose proof (tableInv_addEntry f t Hinv Hb) as Hinv'.
  assert (Hents : ents (addEntry f t) = ents t ++ [f]) by done.
  rewrite (search_newest _ (addEntry f t) q Hinv').
  rewrite Hents, !newest_snoc.
  rewrite (decide_True (P := keyName f = Name q)) by done.
  assert (Hidx : indexAt Dynamic (addEntry f t) (length (ents t)) = 1).
  { unfold indexAt. rewrite len_addEntry. unfold len. lia. }
  destruct Hnot as [->|[Hv Hnone]]; [by rewrite Hidx|].
  destruct (Sensitive q); [by rewrite Hidx|].
  rewrite decide_False by (unfold keyPair; congruence).
  destruct (newest keyPair (keyPair q) (ents t)) as [p1|] eqn:Hp1.
  - destruct (newest_lookup keyPair _ _ _ Hp1) as (g & Hg & Hk).
    by destruct (Hnone p1 g Hg).
  - by rewrite Hidx.
Qed.

Lemma addEntry_takes_over_name_witness :
  search Dynamic
    (addEntry (pair "k1" "v3") (addEntries [pair "k1" "v1"; pair "k2" "v2"] init))
    (mkHeaderField "k1" "v1" true)
  = Ok (1, false).
Proof.
  refine (addEntry_takes_over_name
    (addEntries [pair "k1" "v1"; pair "k2" "v2"] init)
    (pair "k1" "v3") (mkHeaderField "k1" "v1" true) _ _ _ _).
  - apply reachable_addEntries. constructor.
  - reflexivity.
  - reflexivity.
  - left. reflexivity.
Defined.

(** Eviction does not renumber what survives: a match whose entry is not
    among the [n] evicted ones is found again, with the same dynamic index
    and the same kind, after [evictOldest(n)]. *)
Theorem evictOldest_keeps_dynamic_indices
    (t t' : headerFieldTable) (n : Z) (q : HeaderField) (i : Z) (m : bool) :
  reachable t → evictCount t + len t < two64 →
  evictOldest n t = Ok t' →
  search Dynamic t q = Ok (i, m) → 1 <= i <= len t - n →
  search Dynamic t' q = Ok (i, m).
Proof.
  intros Hr Hb Hrun Hs Hi.
  pose proof (reachable_tableInv t Hr Hb) as Hinv.
  destruct (tableInv_evictOldest n t t' Hinv Hrun) as (Hinv' & Hec' & Hents').
  destruct (evictOldest_Ok_inv n t t' Hrun) as (Hn & _).
  assert (Hlen' : len t' = len t - n).
  { unfold len in *. rewrite Hents', length_drop. lia. }
  rewrite (search_newest _ t q Hinv) in Hs.
  rewrite (search_newest _ t' q Hinv').
  rewrite Hents', !newest_drop. unfold indexAt in *.
  destruct (Sensitive q).
  - destruct (newest keyName (Name q) (ents t)) as [p0|] eqn:Hp0.
    + injection Hs as <- <-.
      rewrite decide_True by lia. rewrite Hlen'. do 2 f_equal. lia.
    + injection Hs as <- <-. lia.
  - destruct (newest keyPair (keyPair q) (ents t)) as [p1|] eqn:Hp1.
    + injection Hs as <- <-.
      rewrite decide_True by lia. rewrite Hlen'. do 2 f_equal. lia.
    + destruct (newest keyName (Name q) (ents t)) as [p0|] eqn:Hp0.
      * injection Hs as <- <-.
        rewrite decide_True by lia. rewrite Hlen'. do 2 f_equal. lia.
      * injection Hs as <- <-. lia.
Qed.

Lemma evictOldest_keeps_dynamic_indices_witness :
  ∃ t', evictOldest 1
          (addEntries [pair "k1" "v1"; pair "k2" "v2"; pair "k3" "v3"] init)
        = Ok t'
        ∧ search Dynamic t' (pair "k2" "v2") = Ok (2, true).
Proof.
  eexists. split; [reflexivity|].
  refine (evictOldest_keeps_dynamic_indices
    (addEntries [pair "k1" "v1"; pair "k2" "v2"; pair "k3" "v3"] init)
    _ 1 (pair "k2" "v2") 2 true _ _ _ _ _).
  - apply reachable_addEntries. constructor.
  - reflexivity.
  - reflexivity.
  - reflexivity.
  - split; vm_compute; discriminate.
Defined.

(** ** idToIndex on the entries of the table *)

(** For the id of an entry of the table the static and the dynamic index
    mirror each other, [static + dynamic = len + 1], and two different
    such ids never get the same index. *)
Theorem idToIndex_mirror_and_injective (t : headerFieldTable) (id : Z) :
  wfTable t → is_u64 id → evictCount t < id <= evictCount t + len t →
  (∃ s d, idToIndex Static t id = Ok s ∧ idToIndex Dynamic t id = Ok d
          ∧ s + d = len t + 1 ∧ 1 <= s <= len t ∧ 1 <= d <= len t)
  ∧ ∀ kind id', is_u64 id' → evictCount t < id' <= evictCount t + len t →
                idToIndex kind t id' = idToIndex kind t id → id' = id.
Proof.
  intros Hwf Hid64 Hid.
  split.
  - destruct (idToIndex_dynamic_live t id Hwf Hid64 ltac:(lia) ltac:(lia))
      as [Hd Hr].
    eexists _, _. split; [by apply idToIndex_static; [| |lia]|].
    split; [exact Hd|]. lia.
  - intros kind id' Hid64' Hid' Heq.
    destruct kind.
    + rewrite !idToIndex_static in Heq by (done || lia).
      injection Heq as Heq. lia.
    + destruct (idToIndex_dynamic_live t id Hwf Hid64 ltac:(lia) ltac:(lia))
        as [Hd _].
      destruct (idToIndex_dynamic_live t id' Hwf Hid64' ltac:(lia) ltac:(lia))
        as [Hd' _].
      rewrite Hd, Hd' in Heq. injection Heq as Heq. lia.
Qed.

Lemma idToIndex_mirror_and_injective_witness :
  ∃ s d, idToIndex Static
           (addEntries [pair "k1" "v1"; pair "k2" "v2"; pair "k3" "v3"] init) 1
         = Ok s
         ∧ idToIndex Dynamic
             (addEntries [pair "k1" "v1"; pair "k2" "v2"; pair "k3" "v3"] init) 1
           = Ok d
         ∧ s + d
           = len (addEntries [pair "k1" "v1"; pair "k2" "v2"; pair "k3" "v3"] init)
             + 1.
Proof.
  assert (Hwf : wfTable
            (addEntries [pair "k1" "v1"; pair "k2" "v2"; pair "k3" "v3"] init)).
  { split; [split|]; vm_compute; first [discriminate | reflexivity]. }
  assert (Hid : is_u64 1).
  { split; vm_compute; first [discriminate | reflexivity]. }
  assert (Hr : evictCount
                 (addEntries [pair "k1" "v1"; pair "k2" "v2"; pair "k3" "v3"] init)
               < 1
               <= evictCount
                    (addEntries [pair "k1" "v1"; pair "k2" "v2"; pair "k3" "v3"] init)
                  + len (addEntries [pair "k1" "v1"; pair "k2" "v2"; pair "k3" "v3"] init)).
  { split; vm_compute; first [discriminate | reflexivity]. }
  destruct (proj1 (idToIndex_mirror_and_injective
    (addEntries [pair "k1" "v1"; pair "k2" "v2"; pair "k3" "v3"] init) 1
    Hwf Hid Hr)) as (s & d & Hs & Hd & Hsum & _).
  exists s, d. split; [exact Hs|]. split; [exact Hd|exact Hsum].
Defined.

(** ** The entries of the static table *)

(** Every entry of the static table is found by [search] with an exact
    match at its own 1-based position, except the ten padding entries,
    which all share the empty pair and resolve to the last of them, 71. The
    61 standard pairs keep positions 1 to 61 and the three tracing headers
    sit at 72, 73 and 74. *)
Theorem static_entries_found_in_place (p : nat) (f : HeaderField) :
  staticEntries !! p = Some f →
  search Static staticTable f
  = Ok (if decide (61 <= p <= 70)%nat then 71 else Z.of_nat p + 1, true).
Proof.
  intros Hp. unfold staticEntries in Hp.
  do 74 (destruct p as [|p];
         [injection Hp as <-; vm_compute; reflexivity | simpl in Hp]).
  done.
Qed.

Lemma static_entries_found_in_place_witness :
  search Static staticTable (pair "trace_id" EmptyString) = Ok (72, true).
Proof.
  apply (static_entries_found_in_place 71 (pair "trace_id" EmptyString)).
  reflexivity.
Defined.

(** ** Evicting in two steps *)

Section eviction_in_steps.

Lemma evictLoop_app a b k t :
  evictLoop (a + b) k t = evictLoop a k t ≫= evictLoop b (k + Z.of_nat a).
Proof.
  revert k t. induction a as [|a IH]; intros k t.
  - simpl. by rewrite Z.add_0_r.
  - cbn [Nat.add evictLoop].
    destruct (ents t !! Z.to_nat k) as [f|]; [|done].
    rewrite IH. by replace (k + 1 + Z.of_nat a) with (k + Z.of_nat (S a)) by lia.
Qed.

(** The loop run on the table left by a first eviction of [n] entries does
    to the maps what the loop run [n] places further on the original table
    does. *)
Lemma evictLoop_shift cnt k n t t' t2 :
  0 <= k → 0 <= n → len t < two64 →
  ents t' = drop (Z.to_nat n) (ents t) →
  evictCount t' = evictCount t + n →
  byName t' = byName t → byNameValue t' = byNameValue t →
  evictLoop cnt (k + n) t = Ok t2 →
  ∃ t2', evictLoop cnt k t' = Ok t2'
         ∧ byName t2' = byName t2 ∧ byNameValue t2' = byNameValue t2.
Proof.
  revert k t t'. induction cnt as [|cnt IH];
    intros k t t' Hk Hn Hlen He Hc Hbn Hbp Hrun; simpl in Hrun.
  - injection Hrun as <-. by exists t'.
  - destruct (ents t !! Z.to_nat (k + n)) as [f|] eqn:Hf; [|done].
    pose proof (lookup_lt_Some _ _ _ Hf) as Hlt. unfold len in Hlen.
    assert (Hf' : ents t' !! Z.to_nat k = Some f).
    { rewrite He, lookup_drop, <- Hf. f_equal. lia. }
    simpl. rewrite Hf'.
    assert (Hid : add64 (add64 (evictCount t') (u64 k)) 1
                  = add64 (add64 (evictCount t) (u64 (k + n))) 1).
    { rewrite Hc, (u64_small k), (u64_small (k + n)) by lia.
      unfold add64.
      by replace (evictCount t + n + k) with (evictCount t + (k + n)) by lia. }
    apply (IH (k + 1) (evictEntry (k + n) f t) (evictEntry k f t')).
    + lia.
    + done.
    + done.
    + done.
    + simpl. lia.
    + unfold evictEntry. simpl. by rewrite Hid, Hbn.
    + unfold evictEntry. simpl. by rewrite Hid, Hbp.
    + by replace (k + 1 + n) with (k + n + 1) by lia.
Qed.

End eviction_in_steps.

(** Evicting [n] entries and then [m] more is the same as evicting [n + m]
    at once: the same table results, or the same overflow panic. *)
Theorem evictOldest_compose (t : headerFieldTable) (n m : Z) :
  wfTable t → 0 <= n → 0 <= m → n + m <= len t →
  evictOldest n t ≫= evictOldest m = evictOldest (n + m) t.
Proof.
  intros [Hec Hlen] Hn Hm Hnm.
  pose proof two63_double as H63. pose proof two63_pos as H63'.
  assert (Hu : ∀ z, 0 <= z <= len t → is_u64 z) by (unfold is_u64; lia).
  destruct (evictOldest_unfold n t ltac:(lia))
    as (t1 & Hl1 & He1 & Hc1 & ->).
  destruct (evictOldest_unfold (n + m) t ltac:(lia))
    as (t2 & Hl2 & _ & _ & ->).
  rewrite (u64_small n), (u64_small (n + m)) by (apply Hu; lia).
  pose proof (add64_lt_iff (evictCount t) n Hec (Hu n ltac:(lia))) as Hov1.
  pose proof (add64_lt_iff (evictCount t) (n + m) Hec (Hu (n + m) ltac:(lia)))
    as Hov2.
  destruct (decide (add64 (evictCount t) n < evictCount t)) as [Ho1|Ho1].
  { simpl. by rewrite decide_True by lia. }
  assert (Hfit : evictCount t + n < two64) by lia.
  rewrite (add64_small (evictCount t) n) by (unfold is_u64 in Hec; lia).
  simpl.
  set (tA := {| ents := drop (Z.to_nat n) (ents t);
                evictCount := evictCount t + n;
                byName := byName t1;
                byNameValue := byNameValue t1 |}).
  assert (HlenA : len tA = len t - n).
  { unfold len. simpl. rewrite length_drop. unfold len in Hnm. lia. }
  destruct (evictOldest_unfold m tA ltac:(lia))
    as (tB & HlB & _ & _ & ->).
  simpl. rewrite (u64_small m) by (apply Hu; lia).
  assert (HecA : is_u64 (evictCount t + n)) by (unfold is_u64 in *; lia).
  pose proof (add64_lt_iff (evictCount t + n) m HecA (Hu m ltac:(lia))) as HovB.
  destruct (decide (add64 (evictCount t + n) m < evictCount t + n)) as [Ho|Ho].
  { by rewrite decide_True by lia. }
  rewrite decide_False by lia.
  (* the one-step loop is the first loop followed by the shifted second *)
  replace (Z.to_nat (n + m)) with (Z.to_nat n + Z.to_nat m)%nat in Hl2 by lia.
  rewrite evictLoop_app, Hl1 in Hl2. simpl in Hl2.
  rewrite Z2Nat.id in Hl2 by lia.
  destruct (evictLoop_shift (Z.to_nat m) 0 n t1 tA t2)
    as (tB' & HlB' & Hbn & Hbp); try done.
  { unfold len. rewrite He1. unfold len in Hlen. lia. }
  { simpl. by rewrite He1. }
  { simpl. by rewrite Hc1. }
  rewrite HlB in HlB'. injection HlB' as <-.
  f_equal.
  rewrite drop_drop.
  replace (Z.to_nat n + Z.to_nat m)%nat with (Z.to_nat (n + m)) by lia.
  rewrite !add64_small by (unfold is_u64 in *; lia).
  rewrite Hbn, Hbp. f_equal. lia.
Qed.

Lemma evictOldest_compose_witness :
  evictOldest 1 (addEntries [pair "k1" "v1"; pair "k2" "v2"; pair "k1" "v3"] init)
    ≫= evictOldest 1
  = evictOldest (1 + 1)
      (addEntries [pair "k1" "v1"; pair "k2" "v2"; pair "k1" "v3"] init).
Proof.
  apply evictOldest_compose.
  - split; [split|]; vm_compute; first [discriminate | reflexivity].
  - lia.
  - lia.
  - vm_compute. discriminate.
Defined.

(** ** What the comparison with staticTable changes *)

(** The table kind changes nothing but the numbering: on the same table
    contents a search finds the same entry with the same kind of match
    either way, at index [s] counted from the oldest entry for the static
    table and at [len + 1 - s] for a dynamic one. *)
Theorem search_kinds_mirror
    (t : headerFieldTable) (q : HeaderField) (s : Z) (m : bool) :
  reachable t → evictCount t + len t < two64 →
  search Static t q = Ok (s, m) →
  search Dynamic t q = Ok (if decide (s = 0) then 0 else len t + 1 - s, m).
Proof.
  intros Hr Hb. pose proof (reachable_tableInv t Hr Hb) as Hinv.
  rewrite !(search_newest _ t q Hinv). unfold indexAt.
  destruct (if Sensitive q then None
            else newest keyPair (keyPair q) (ents t)) as [p1|].
  - intros [= <- <-]. rewrite decide_False by lia. do 2 f_equal. lia.
  - destruct (newest keyName (Name q) (ents t)) as [p0|].
    + intros [= <- <-]. rewrite decide_False by lia. do 2 f_equal. lia.
    + by intros [= <- <-].
Qed.

Lemma search_kinds_mirror_witness :
  search Dynamic staticTable (pair ":method" "PUT")
  = Ok (if decide (3 = 0) then 0 else len staticTable + 1 - 3, false).
Proof.
  apply (search_kinds_mirror staticTable (pair ":method" "PUT") 3 false).
  - apply (reachable_addEntries staticEntries init). constructor.
  - reflexivity.
  - reflexivity.
Defined.
